(** * Motion-driven target game: the update / collision core of GameCanvas.tsx

    A shallow embedding of [updateGameState], [detectMotionAndCollisions] and
    [gameLoop] from src/components/GameCanvas.tsx, followed by the properties
    of the specification that concern them.

    Conventions of the embedding.
    - A JavaScript [number] that holds a time, a coordinate or a size is the
      exact rational ([Q]) it denotes, and sums, products and quotients of
      such numbers are taken exactly; hit points and the session counters,
      which only ever move by whole steps, are integers ([Z]).  The source
      computes in binary64 and rounds every result to the nearest double.
      Rounding is monotone and leaves a double as it is, so a bound
      [x <= c] or [c <= x] by a double [c] that holds of an exact result
      holds of the rounded one, while a strict bound need not.  The
      properties stated of the program below hold whatever a comparison
      returns, or rest on bounds of the first kind; the lemmas that serve
      their proofs are about the exact arithmetic.  Where rounding changes
      what a line does, the last section of the definitions gives the line
      over [float], and the difference is stated with the property it bears
      on.
    - The [useRef] cells of the component are the fields of one record,
      [Refs], threaded through every function.
    - [Math.random()] is an input: each spawn consumes four draws, in the
      order the source evaluates them.
    - Particles, floating texts and drawing are presentation; a resolved hit
      is reported as a [Hit] value where the source calls [spawnText]. *)

From Stdlib Require Import ZArith QArith Qround Qminmax List String Bool Lia Lqa.
From Stdlib Require Import Floats.
Import ListNotations.

Open Scope Q_scope.

(** ** Comparisons on numbers, as booleans *)

Definition Qltb (a b : Q) : bool := negb (Qle_bool b a).
Definition Qgtb (a b : Q) : bool := Qltb b a.
Definition Qleb (a b : Q) : bool := Qle_bool a b.
Definition Qgeb (a b : Q) : bool := Qle_bool b a.

(** [a % b] of JavaScript, for the non-negative operands of the pixel loop. *)
Definition jsRem (a b : Q) : Q := a - b * inject_Z (Qfloor (a / b)).

(** ** Constants (GameCanvas.tsx, lines 8-13) *)

Definition MOTION_THRESHOLD : Z := 40.
Definition HIT_PIXEL_COUNT_THRESHOLD : Z := 25.
Definition GRID_SCALE : Q := 8.
Definition ENEMY_SPAWN_RATE_MS : Q := 1500.
Definition ENEMY_LIFESPAN_MS : Q := 5000.
Definition GAME_DURATION_SEC : Q := 60.

(** ** Data (types.ts) *)

Module Point.
Record t : Type := mk { x : Q; y : Q }.
End Point.

Module Enemy.
Record t : Type := mk {
  id : string;
  x : Q;
  y : Q;
  width : Q;
  height : Q;
  hp : Z;
  maxHp : Z;
  spawnTime : Q;
  lastHitTime : Q;
  isHit : bool
}.

Definition set_hp (v : Z) (e : t) : t :=
  mk (id e) (x e) (y e) (width e) (height e) v (maxHp e)
     (spawnTime e) (lastHitTime e) (isHit e).
Definition set_lastHitTime (v : Q) (e : t) : t :=
  mk (id e) (x e) (y e) (width e) (height e) (hp e) (maxHp e)
     (spawnTime e) v (isHit e).
Definition set_isHit (v : bool) (e : t) : t :=
  mk (id e) (x e) (y e) (width e) (height e) (hp e) (maxHp e)
     (spawnTime e) (lastHitTime e) v.
End Enemy.

Record GameStats : Type := mkGameStats {
  score : Z;
  headshots : Z;
  bodyshots : Z;
  enemiesSpawned : Z;
  enemiesDestroyed : Z
}.

(** The mutable cells of the component (lines 20-35). *)
Record Refs : Type := mkRefs {
  scoreRef : Z;
  headshotsRef : Z;
  bodyshotsRef : Z;
  enemiesDestroyedRef : Z;
  enemiesSpawnedRef : Z;
  enemiesRef : list Enemy.t;
  lastSpawnTimeRef : Q;
  gameStartTimeRef : Q;
  prevFrameDataRef : option (list Z);
  cursorRef : option Point.t
}.

Definition initialRefs : Refs :=
  mkRefs 0 0 0 0 0 [] 0 0 None None.

Definition set_enemiesRef (v : list Enemy.t) (r : Refs) : Refs :=
  mkRefs (scoreRef r) (headshotsRef r) (bodyshotsRef r) (enemiesDestroyedRef r)
         (enemiesSpawnedRef r) v (lastSpawnTimeRef r) (gameStartTimeRef r)
         (prevFrameDataRef r) (cursorRef r).
Definition set_gameStartTimeRef (v : Q) (r : Refs) : Refs :=
  mkRefs (scoreRef r) (headshotsRef r) (bodyshotsRef r) (enemiesDestroyedRef r)
         (enemiesSpawnedRef r) (enemiesRef r) (lastSpawnTimeRef r) v
         (prevFrameDataRef r) (cursorRef r).
Definition set_prevFrameDataRef (v : option (list Z)) (r : Refs) : Refs :=
  mkRefs (scoreRef r) (headshotsRef r) (bodyshotsRef r) (enemiesDestroyedRef r)
         (enemiesSpawnedRef r) (enemiesRef r) (lastSpawnTimeRef r)
         (gameStartTimeRef r) v (cursorRef r).
Definition set_cursorRef (v : option Point.t) (r : Refs) : Refs :=
  mkRefs (scoreRef r) (headshotsRef r) (bodyshotsRef r) (enemiesDestroyedRef r)
         (enemiesSpawnedRef r) (enemiesRef r) (lastSpawnTimeRef r)
         (gameStartTimeRef r) (prevFrameDataRef r) v.

(** The stats object literal handed to [onGameOver] (lines 160-166). *)
Definition statsOf (r : Refs) : GameStats :=
  mkGameStats (scoreRef r) (headshotsRef r) (bodyshotsRef r)
              (enemiesSpawnedRef r) (enemiesDestroyedRef r).

(** ** updateGameState (lines 97-171) *)

(** The four [Math.random()] results one spawn consumes, in evaluation order:
    the size draw, the draw behind [toString(36).substr(2, 9)] given as the
    string it yields, the x draw and the y draw.  Numeric draws lie in [0,1). *)
Record SpawnDraws : Type := mkDraws {
  sizeDraw : Q;
  idDraw : string;
  xDraw : Q;
  yDraw : Q
}.

Definition unitDraw (d : Q) : Prop := 0 <= d /\ d < 1.

Definition drawsInRange (d : SpawnDraws) : Prop :=
  unitDraw (sizeDraw d) /\ unitDraw (xDraw d) /\ unitDraw (yDraw d).

(** The object literal pushed at lines 100-112, its sums and products taken
    exactly; [size64] is line 100 in binary64, where a draw just under 1
    gives a size of 120. *)
Definition spawnEnemy (timestamp width height : Q) (d : SpawnDraws) : Enemy.t :=
  let size := 80 + sizeDraw d * 40 in
  Enemy.mk (idDraw d)
           (xDraw d * (width - size))
           (yDraw d * (height - size))
           size
           (size * (16 # 10))
           3 3 timestamp 0 false.

Definition spawnDue (timestamp : Q) (r : Refs) : bool :=
  Qgtb (timestamp - lastSpawnTimeRef r) ENEMY_SPAWN_RATE_MS.

(** Step 1, spawning (lines 99-115). *)
Definition spawnStep (timestamp width height : Q) (d : SpawnDraws) (r : Refs) : Refs :=
  if spawnDue timestamp r then
    mkRefs (scoreRef r) (headshotsRef r) (bodyshotsRef r) (enemiesDestroyedRef r)
           (enemiesSpawnedRef r + 1)
           (enemiesRef r ++ [spawnEnemy timestamp width height d])
           timestamp (gameStartTimeRef r) (prevFrameDataRef r) (cursorRef r)
  else r.

(** Step 4, first loop: the hit flash is cleared after 100 ms (lines 135-139). *)
Definition clearFlash (timestamp : Q) (e : Enemy.t) : Enemy.t :=
  if Enemy.isHit e && Qgtb (timestamp - Enemy.lastHitTime e) 100
  then Enemy.set_isHit false e else e.

(** Step 4, the filter predicate (lines 142-152), the age taken exactly;
    [isExpired64] is line 144 in binary64, where an age a rounding error
    above 5000 counts as 5000. *)
Definition isDead (e : Enemy.t) : bool := (Enemy.hp e <=? 0)%Z.
Definition isExpired (timestamp : Q) (e : Enemy.t) : bool :=
  Qgtb (timestamp - Enemy.spawnTime e) ENEMY_LIFESPAN_MS.
Definition keepEnemy (timestamp : Q) (e : Enemy.t) : bool :=
  negb (isDead e) && negb (isExpired timestamp e).

Definition sweepEnemies (timestamp : Q) (es : list Enemy.t) : list Enemy.t :=
  filter (keepEnemy timestamp) (map (clearFlash timestamp) es).

(** The time check (lines 155-156), the quotient taken exactly;
    [remaining64] is the same in binary64, where a time a rounding error
    short of 60000 ms counts as 60000. *)
Definition remaining (timestamp : Q) (r : Refs) : Q :=
  let elapsed := (timestamp - gameStartTimeRef r) / 1000 in
  Qmax 0 (GAME_DURATION_SEC - elapsed).

(** [updateGameState]: the new cells, the argument of the [onGameOver] call
    when it is made, and the returned flag ([true]: continue the loop). *)
Definition updateGameState (timestamp width height : Q) (d : SpawnDraws) (r : Refs)
  : Refs * option GameStats * bool :=
  let r1 := spawnStep timestamp width height d r in
  let r2 := set_enemiesRef (sweepEnemies timestamp (enemiesRef r1)) r1 in
  let remain := remaining timestamp r2 in
  if Qleb remain 0
  then (r2, Some (statsOf r2), false)
  else (r2, None, true).

(** ** detectMotionAndCollisions (lines 173-308) *)

(** The pixel comparison loop (lines 216-229): [data] and [prevData] are the
    RGBA bytes of the two frames, four per pixel; [pixelIdx] is [i / 4]. *)
Fixpoint comparePixels (mw : Q) (pixelIdx : Z) (data prevData : list Z)
  : list Point.t :=
  match data, prevData with
  | r :: g :: b :: _ :: data', r' :: g' :: b' :: _ :: prevData' =>
      let rDiff := Z.abs (r - r') in
      let gDiff := Z.abs (g - g') in
      let bDiff := Z.abs (b - b') in
      let rest := comparePixels mw (pixelIdx + 1) data' prevData' in
      if (rDiff + gDiff + bDiff >? MOTION_THRESHOLD * 3)%Z then
        Point.mk (jsRem (inject_Z pixelIdx) mw * GRID_SCALE)
                 (inject_Z (Qfloor (inject_Z pixelIdx / mw)) * GRID_SCALE)
        :: rest
      else rest
  | _, _ => []
  end.

Definition totalX (activePixels : list Point.t) : Q :=
  fold_left (fun acc p => acc + Point.x p) activePixels 0.
Definition totalY (activePixels : list Point.t) : Q :=
  fold_left (fun acc p => acc + Point.y p) activePixels 0.
Definition count (activePixels : list Point.t) : Q :=
  inject_Z (Z.of_nat (List.length activePixels)).

(** The centroid of the moving pixels (lines 236-243). *)
Definition centroid (activePixels : list Point.t) : Point.t :=
  Point.mk (totalX activePixels / count activePixels)
           (totalY activePixels / count activePixels).

Definition smoothFactor : Q := 5 # 10.

(** The smoothing step of lines 246-252, the sum taken exactly; [smooth64]
    is the same in binary64, where the midpoint of two adjacent doubles is
    rounded onto one of them. *)
Definition smooth (cursor : option Point.t) (avg : Point.t) : Point.t :=
  match cursor with
  | Some c =>
      Point.mk (Point.x c * smoothFactor + Point.x avg * (1 - smoothFactor))
               (Point.y c * smoothFactor + Point.y avg * (1 - smoothFactor))
  | None => avg
  end.

(** Cursor update (lines 235-255). *)
Definition updateCursor (cursor : option Point.t) (activePixels : list Point.t)
  : option Point.t :=
  match activePixels with
  | [] => None
  | _ :: _ => Some (smooth cursor (centroid activePixels))
  end.

(** What a resolved hit reports: [spawnText] is called with "CRITICAL +3" for
    the first and "BODY +1" for the second. *)
Inductive Hit : Type := Critical | Body.

(** The rectangle test of lines 267-268 (both ends inclusive). *)
Definition inRect (e : Enemy.t) (p : Point.t) : bool :=
  Qgeb (Point.x p) (Enemy.x e) && Qleb (Point.x p) (Enemy.x e + Enemy.width e) &&
  Qgeb (Point.y p) (Enemy.y e) && Qleb (Point.y p) (Enemy.y e + Enemy.height e).

(** One iteration of the inner loop (lines 266-272) on the pair
    [(hitsInRect, hitYSum)]. *)
Definition tally (e : Enemy.t) (acc : Z * Q) (p : Point.t) : Z * Q :=
  if inRect e p then ((fst acc + 1)%Z, snd acc + Point.y p) else acc.

Definition hitsInRect (e : Enemy.t) (activePixels : list Point.t) : Z :=
  fst (fold_left (tally e) activePixels (0%Z, 0)).
Definition hitYSum (e : Enemy.t) (activePixels : list Point.t) : Q :=
  snd (fold_left (tally e) activePixels (0%Z, 0)).

Definition headThreshold (e : Enemy.t) : Q :=
  Enemy.y e + Enemy.height e * (25 # 100).

(** The literal 400 of line 260. *)
Definition HIT_COOLDOWN_MS : Q := 400.

Definition coolingDown (timestamp : Q) (e : Enemy.t) : bool :=
  Qltb (timestamp - Enemy.lastHitTime e) HIT_COOLDOWN_MS.

Definition addHeadshot (r : Refs) : Refs :=
  mkRefs (scoreRef r + 3) (headshotsRef r + 1) (bodyshotsRef r)
         (enemiesDestroyedRef r) (enemiesSpawnedRef r) (enemiesRef r)
         (lastSpawnTimeRef r) (gameStartTimeRef r) (prevFrameDataRef r)
         (cursorRef r).
Definition addBodyshot (r : Refs) : Refs :=
  mkRefs (scoreRef r + 1) (headshotsRef r) (bodyshotsRef r + 1)
         (enemiesDestroyedRef r) (enemiesSpawnedRef r) (enemiesRef r)
         (lastSpawnTimeRef r) (gameStartTimeRef r) (prevFrameDataRef r)
         (cursorRef r).
Definition addDestroyed (r : Refs) : Refs :=
  mkRefs (scoreRef r) (headshotsRef r) (bodyshotsRef r)
         (enemiesDestroyedRef r + 1) (enemiesSpawnedRef r) (enemiesRef r)
         (lastSpawnTimeRef r) (gameStartTimeRef r) (prevFrameDataRef r)
         (cursorRef r).

(** The callback of [enemiesRef.current.forEach] (lines 258-306) on one enemy:
    the counters after it, the enemy after it, and the hit it resolved. *)
Definition resolveEnemy (activePixels : list Point.t) (timestamp : Q)
           (r : Refs) (e : Enemy.t) : Refs * Enemy.t * option Hit :=
  if coolingDown timestamp e then (r, e, None)
  else if (hitsInRect e activePixels >? HIT_PIXEL_COUNT_THRESHOLD)%Z then
    let avgY := hitYSum e activePixels / inject_Z (hitsInRect e activePixels) in
    let isHeadshot := Qltb avgY (headThreshold e) in
    let '(r1, e1, h) :=
      if isHeadshot
      then (addHeadshot r, Enemy.set_hp 0 e, Critical)
      else (addBodyshot r, Enemy.set_hp (Enemy.hp e - 1) e, Body) in
    let e2 := Enemy.set_isHit true (Enemy.set_lastHitTime timestamp e1) in
    let r2 := if (Enemy.hp e2 <=? 0)%Z then addDestroyed r1 else r1 in
    (r2, e2, Some h)
  else (r, e, None).

Definition hitList (h : option Hit) : list Hit :=
  match h with Some k => [k] | None => [] end.

(** The [forEach] itself, in array order. *)
Fixpoint forEachEnemy (activePixels : list Point.t) (timestamp : Q)
         (r : Refs) (es : list Enemy.t) : Refs * list Enemy.t * list Hit :=
  match es with
  | [] => (r, [], [])
  | e :: rest =>
      let '(r1, e1, h) := resolveEnemy activePixels timestamp r e in
      let '(r2, rest', hs) := forEachEnemy activePixels timestamp r1 rest in
      (r2, e1 :: rest', hitList h ++ hs)
  end.

(** The collision pass (lines 257-306). *)
Definition collisionDetection (activePixels : list Point.t) (timestamp : Q)
           (r : Refs) : Refs * list Hit :=
  let '(r1, es, hs) := forEachEnemy activePixels timestamp r (enemiesRef r) in
  (set_enemiesRef es r1, hs).

(** What the motion canvas gives on one call: whether [motionCanvasRef.current]
    and its 2D context exist, and the bytes [getImageData] returns. *)
Record MotionInput : Type := mkMotion {
  mCanvas : bool;
  mCtx : bool;
  imageData : list Z
}.

Definition sameLength (a b : list Z) : bool :=
  (List.length a =? List.length b)%nat.

(** [detectMotionAndCollisions]: the new cells and, when the call reaches the
    collision pass, the hits that pass resolved. *)
Definition detectMotionAndCollisions (m : MotionInput) (width height timestamp : Q)
           (r : Refs) : Refs * option (list Hit) :=
  if negb (mCanvas m) then (r, None)
  else
    let mw := width / GRID_SCALE in
    if negb (mCtx m) then (r, None)
    else
      let data := imageData m in
      match prevFrameDataRef r with
      | None => (set_prevFrameDataRef (Some data) r, None)
      | Some prevData =>
          if negb (sameLength prevData data)
          then (set_prevFrameDataRef (Some data) r, None)
          else
            let activePixels := comparePixels mw 0 data prevData in
            let r1 := set_prevFrameDataRef (Some data) r in
            let r2 := set_cursorRef (updateCursor (cursorRef r1) activePixels) r1 in
            let '(r3, hs) := collisionDetection activePixels timestamp r2 in
            (r3, Some hs)
      end.

(** ** gameLoop (lines 473-513) *)

(** Everything one animation frame reads from outside the component.
    [canvasWidth] and [canvasHeight] are [canvas.width] and [canvas.height]
    as lines 501-507 read them, that is after the resize of lines 479-482. *)
Record Tick : Type := mkTick {
  timestamp : Q;
  canvas : bool;          (* canvasRef.current is set *)
  videoReady : bool;      (* videoRef.current is set and readyState === 4 *)
  canvasWidth : Z;
  canvasHeight : Z;
  ctx : bool;             (* canvas.getContext('2d') is not null *)
  draws : SpawnDraws;
  motion : MotionInput
}.

Inductive Event : Type :=
| GameOverCall (stats : GameStats)
| CollisionPass (at_ : Q) (hits : list Hit).

Definition passEvent (ts : Q) (p : option (list Hit)) : list Event :=
  match p with Some hs => [CollisionPass ts hs] | None => [] end.
Definition overEvent (s : option GameStats) : list Event :=
  match s with Some st => [GameOverCall st] | None => [] end.

Definition startClock (t : Tick) (r : Refs) : Refs :=
  if Qeq_bool (gameStartTimeRef r) 0
  then set_gameStartTimeRef (timestamp t) r else r.

Definition ready (t : Tick) : bool := canvas t && videoReady t && ctx t.

(** One call of [gameLoop]: the new cells, the calls it made in order, and
    whether it ended by requesting the next animation frame.  The first line
    is the falsy test [!gameStartTimeRef.current] of line 474. *)

Definition gameLoop (t : Tick) (r : Refs) : Refs * list Event * bool :=
  let r0 := startClock t r in
  if canvas t && videoReady t then
    if ctx t then
      let w := inject_Z (canvasWidth t) in
      let h := inject_Z (canvasHeight t) in
      let '(r1, over, isRunning) := updateGameState (timestamp t) w h (draws t) r0 in
      let '(r2, pass) := detectMotionAndCollisions (motion t) w h (timestamp t) r1 in
      (r2, overEvent over ++ passEvent (timestamp t) pass, isRunning)
    else (r0, [], true)
  else (r0, [], true).

(** The component between two frames: its cells, whether a frame is
    requested, and the calls made so far. *)
Record Session : Type := mkSession {
  refs : Refs;
  requested : bool;
  trace : list Event
}.

(** Mounting the component requests the first frame (lines 515-518). *)
Definition initialSession : Session := mkSession initialRefs true [].

Definition frame (s : Session) (t : Tick) : Session :=
  if requested s then
    let '(r, evs, again) := gameLoop t (refs s) in
    mkSession r again (trace s ++ evs)
  else s.

Definition run (ticks : list Tick) : Session := fold_left frame ticks initialSession.

(** ** One enemy across frames

    Each element of the array is touched once per frame by the sweep of
    [updateGameState] and, when the call reaches it, once by the collision
    pass; neither looks at another element.  [follow] iterates exactly these
    two steps on a single enemy: a frame is its timestamp and the moving
    pixels of its collision pass ([None] when the pass was not reached).  It
    returns the counters, changed by this enemy alone, and the hits resolved
    on it with their timestamps. *)

Definition FrameView : Type := (Q * option (list Point.t))%type.

Definition enemyAfter (activePixels : list Point.t) (ts : Q) (e : Enemy.t) : Enemy.t :=
  snd (fst (resolveEnemy activePixels ts initialRefs e)).

(** One frame on one array element; [None] when the sweep drops it. *)
Definition enemyFrame (f : FrameView) (e : Enemy.t) : option Enemy.t :=
  let e1 := clearFlash (fst f) e in
  if keepEnemy (fst f) e1 then
    match snd f with
    | None => Some e1
    | Some activePixels => Some (enemyAfter activePixels (fst f) e1)
    end
  else None.

(** The elements of the array that one frame leaves, each after that frame. *)
Definition survivors (f : FrameView) (es : list Enemy.t) : list Enemy.t :=
  flat_map (fun e => match enemyFrame f e with Some e' => [e'] | None => [] end) es.

Fixpoint follow (e : Enemy.t) (r : Refs) (frames : list FrameView)
  : Refs * list (Q * Hit) :=
  match frames with
  | [] => (r, [])
  | (ts, pass) :: rest =>
      let e1 := clearFlash ts e in
      if keepEnemy ts e1 then
        match pass with
        | None => follow e1 r rest
        | Some activePixels =>
            let '(r1, e2, h) := resolveEnemy activePixels ts r e1 in
            let '(r2, hs) := follow e2 r1 rest in
            (r2, map (pair ts) (hitList h) ++ hs)
        end
      else (r, [])
  end.

(** The moving pixels a call of [detectMotionAndCollisions] hands to its
    collision pass, when it reaches it. *)
Definition activePixelsOf (m : MotionInput) (width : Q) (r : Refs)
  : option (list Point.t) :=
  if mCanvas m && mCtx m then
    match prevFrameDataRef r with
    | None => None
    | Some prevData =>
        if sameLength prevData (imageData m)
        then Some (comparePixels (width / GRID_SCALE) 0 (imageData m) prevData)
        else None
    end
  else None.

(** ** Identities handed out by the spawns of a run *)

Definition spawnsAt (s : Session) (t : Tick) : list string :=
  if requested s && ready t && spawnDue (timestamp t) (refs s)
  then [idDraw (draws t)] else [].

Fixpoint spawnIdsFrom (s : Session) (ticks : list Tick) : list string :=
  match ticks with
  | [] => []
  | t :: rest => spawnsAt s t ++ spawnIdsFrom (frame s t) rest
  end.

Definition liveIds (r : Refs) : list string := map Enemy.id (enemiesRef r).

(** [subseq l m]: [l] is [m] with some elements left out. *)
Inductive subseq {A : Type} : list A -> list A -> Prop :=
| subseq_nil : subseq [] []
| subseq_skip : forall a l m, subseq l m -> subseq l (a :: m)
| subseq_take : forall a l m, subseq l m -> subseq (a :: l) (a :: m).


Definition hpInRange (e : Enemy.t) : Prop :=
  (0 <= Enemy.hp e <= Enemy.maxHp e)%Z.

(** ** The callback on one enemy, by cases *)

Definition hitEnemy (ts : Q) (v : Z) (e : Enemy.t) : Enemy.t :=
  Enemy.set_isHit true (Enemy.set_lastHitTime ts (Enemy.set_hp v e)).

Definition confirmed (activePixels : list Point.t) (ts : Q) (e : Enemy.t) : Prop :=
  coolingDown ts e = false /\
  (HIT_PIXEL_COUNT_THRESHOLD < hitsInRect e activePixels)%Z.

Definition hitCentroidY (activePixels : list Point.t) (e : Enemy.t) : Q :=
  hitYSum e activePixels / inject_Z (hitsInRect e activePixels).

Inductive Outcome (ap : list Point.t) (ts : Q) (r : Refs) (e : Enemy.t)
  : Refs * Enemy.t * option Hit -> Prop :=
| NoHit :
    ~ confirmed ap ts e ->
    Outcome ap ts r e (r, e, None)
| HeadHit :
    confirmed ap ts e ->
    hitCentroidY ap e < headThreshold e ->
    Outcome ap ts r e
            (addDestroyed (addHeadshot r), hitEnemy ts 0 e, Some Critical)
| BodyHit :
    confirmed ap ts e ->
    headThreshold e <= hitCentroidY ap e ->
    Outcome ap ts r e
            ((if (Enemy.hp e - 1 <=? 0)%Z
              then addDestroyed (addBodyshot r) else addBodyshot r),
             hitEnemy ts (Enemy.hp e - 1) e, Some Body).

(** ** Invariants, as predicates *)

Definition scoreOK (r : Refs) : Prop :=
  scoreRef r = (3 * headshotsRef r + 1 * bodyshotsRef r)%Z.

Definition hpOK (e : Enemy.t) : Prop :=
  Enemy.maxHp e = 3%Z /\ (0 <= Enemy.hp e <= 3)%Z.

(** ** Concrete inputs used below

    A 320 x 240 canvas gives a 40 x 30 motion grid, that is 4800 bytes. *)

Definition stillImage : list Z := repeat 0%Z 4800.
Definition brightImage : list Z := repeat 255%Z 4800.
(** Only the top three grid rows differ from [stillImage]. *)
Definition topRowsImage : list Z := repeat 255%Z 480 ++ repeat 0%Z 4320.

Definition cornerDraws : SpawnDraws := mkDraws 0 "i" 0 0.

Definition camera (ts : Q) (d : SpawnDraws) (image : list Z) : Tick :=
  mkTick ts true true 320 240 true d (mkMotion true true image).

(** The target of the end-to-end scenario: 100 x 160 at (0,0), just spawned. *)
Definition scenarioTarget (name : string) (spawned : Q) : Enemy.t :=
  Enemy.mk name 0 0 100 160 3 3 spawned 0 false.

Definition sameCell (n : nat) : list Point.t := repeat (Point.mk 10 10) n.

(** Twenty-six moving cells on the lower part of [scenarioTarget]. *)
Definition bodyCells : list Point.t := repeat (Point.mk 8 80) 26.

(** ** Counting the targets still standing *)

Definition alive (e : Enemy.t) : bool := (0 <? Enemy.hp e)%Z.

Definition aliveCount (es : list Enemy.t) : Z :=
  Z.of_nat (List.length (filter alive es)).

(** Every target spawned so far is destroyed, standing, or gone by expiry;
    none is counted as destroyed twice. *)
Definition accounted (r : Refs) : Prop :=
  (enemiesDestroyedRef r + aliveCount (enemiesRef r) <= enemiesSpawnedRef r)%Z.

(** ** The life of a live target *)

(** The array element a spawned enemy has become after the given frames;
    [None] once a sweep has dropped it. *)
Definition lifeState (e0 : Enemy.t) (frames : list FrameView) : option Enemy.t :=
  fold_left (fun oe f => match oe with Some e => enemyFrame f e | None => None end)
            frames (Some e0).

(** [e] is a spawned enemy taken through some frames. *)
Definition hasLife (e : Enemy.t) : Prop :=
  exists ts w h d frames, lifeState (spawnEnemy ts w h d) frames = Some e.

(** ** The pixel loop, by pixel index *)

(** The cell pushed at lines 224-227 for the pixel of index [pixelIdx]. *)
Definition cellOf (mw : Q) (pixelIdx : Z) : Point.t :=
  Point.mk (jsRem (inject_Z pixelIdx) mw * GRID_SCALE)
           (inject_Z (Qfloor (inject_Z pixelIdx / mw)) * GRID_SCALE).

(** The indices of the pixels the loop of lines 216-229 finds moving. *)
Fixpoint activeIndices (pixelIdx : Z) (data prevData : list Z) : list Z :=
  match data, prevData with
  | r :: g :: b :: _ :: data', r' :: g' :: b' :: _ :: prevData' =>
      let rest := activeIndices (pixelIdx + 1) data' prevData' in
      if (Z.abs (r - r') + Z.abs (g - g') + Z.abs (b - b')
          >? MOTION_THRESHOLD * 3)%Z
      then pixelIdx :: rest else rest
  | _, _ => []
  end.

Definition samePoint (p q : Point.t) : Prop :=
  Point.x p == Point.x q /\ Point.y p == Point.y q.

(** Every byte of [data] is within [bound] of the byte of [prevData] at the
    same place. *)
Definition bytesWithin (bound : Z) (data prevData : list Z) : Prop :=
  Forall2 (fun a b => (Z.abs (a - b) <= bound)%Z) data prevData.

Definition inBox (lo hi : Point.t) (p : Point.t) : Prop :=
  Point.x lo <= Point.x p /\ Point.x p <= Point.x hi /\
  Point.y lo <= Point.y p /\ Point.y p <= Point.y hi.

(** ** What a pass announces *)

(** The points of the floating text of a hit: "CRITICAL +3", "BODY +1". *)
Definition pointsOf (h : Hit) : Z :=
  match h with Critical => 3%Z | Body => 1%Z end.

Definition totalPoints (hits : list Hit) : Z :=
  fold_right (fun h acc => (pointsOf h + acc)%Z) 0%Z hits.

Definition countHits (k : Hit) (hits : list Hit) : Z :=
  Z.of_nat (List.length
              (filter (fun h => match h, k with
                                | Critical, Critical | Body, Body => true
                                | _, _ => false
                                end) hits)).

(** ** Counters and calls of a session *)

(** No counter of [r'] is below the same counter of [r]. *)
Definition countersLe (r r' : Refs) : Prop :=
  (scoreRef r <= scoreRef r')%Z /\
  (headshotsRef r <= headshotsRef r')%Z /\
  (bodyshotsRef r <= bodyshotsRef r')%Z /\
  (enemiesDestroyedRef r <= enemiesDestroyedRef r')%Z /\
  (enemiesSpawnedRef r <= enemiesSpawnedRef r')%Z.

(** The arguments of the [onGameOver] calls of a trace, in order. *)
Definition gameOvers (evs : list Event) : list GameStats :=
  flat_map (fun ev => match ev with
                      | GameOverCall st => [st]
                      | CollisionPass _ _ => []
                      end) evs.

Definition consistentStats (st : GameStats) : Prop :=
  score st = (3 * headshots st + 1 * bodyshots st)%Z /\
  (0 <= headshots st)%Z /\ (0 <= bodyshots st)%Z /\
  (0 <= enemiesDestroyed st <= enemiesSpawned st)%Z.

(** ** Spawn times of the live targets *)

Definition spawnGap (a b : Q) : Prop := a + ENEMY_SPAWN_RATE_MS < b.

(** The live targets were spawned more than [ENEMY_SPAWN_RATE_MS] apart, in
    array order, none later than [lastSpawnTimeRef] and none as much as four
    spawn intervals before it. *)
Definition cadenced (r : Refs) : Prop :=
  ForallOrdPairs spawnGap (map Enemy.spawnTime (enemiesRef r)) /\
  Forall (fun e => lastSpawnTimeRef r - 4 * ENEMY_SPAWN_RATE_MS < Enemy.spawnTime e /\
                   Enemy.spawnTime e <= lastSpawnTimeRef r)
         (enemiesRef r).

(** Four frames, each spawning a target, the last one 4503 ms after the
    first. *)
Definition fourSpawns : list Tick :=
  [camera 2000 cornerDraws stillImage; camera 3501 cornerDraws stillImage;
   camera 5002 cornerDraws stillImage; camera 6503 cornerDraws stillImage].

(** ** geminiService.ts: the efficiency figure of the debrief

    [Math.round] on an exact rational: the nearest integer, halves upward. *)
Definition MathRound (v : Q) : Z := Qfloor (v + (1 # 2)).

(** Lines 26-28 of [generateDebrief]. *)
Definition accuracy (stats : GameStats) : Z :=
  if (enemiesSpawned stats >? 0)%Z
  then MathRound (inject_Z (enemiesDestroyed stats)
                  / inject_Z (enemiesSpawned stats) * 100)
  else 0%Z.

(** ** App.tsx: the screens

    The [useState] cells of [App] as one record; each handler is the
    sequence of its [set...] calls.  [handleGameOver] is asynchronous: its
    first three calls run when it is invoked, the last two when the debrief
    text arrives; [handleRestart] and the mount effect store the briefing
    when it arrives. *)
Module App.
Inductive GameState : Type := MENU | LOADING | PLAYING | GAME_OVER.

Record t : Type := mk {
  gameState : GameState;
  briefing : string;
  debrief : string;
  stats : option GameStats;
  isLoading : bool
}.

Definition initial : t :=
  mk MENU "Initializing Neural Link..." EmptyString None false.

Definition setGameState (v : GameState) (a : t) : t :=
  mk v (briefing a) (debrief a) (stats a) (isLoading a).
Definition setBriefing (v : string) (a : t) : t :=
  mk (gameState a) v (debrief a) (stats a) (isLoading a).
Definition setDebrief (v : string) (a : t) : t :=
  mk (gameState a) (briefing a) v (stats a) (isLoading a).
Definition setStats (v : option GameStats) (a : t) : t :=
  mk (gameState a) (briefing a) (debrief a) v (isLoading a).
Definition setIsLoading (v : bool) (a : t) : t :=
  mk (gameState a) (briefing a) (debrief a) (stats a) v.

(** What can happen to the component, one [set...] call at a time: the
    clicks, the [onGameOver] call of the canvas, and the arrival of the two
    texts. *)
Inductive Call : Type :=
| SetGameState (v : GameState)
| SetBriefing (v : string)
| SetDebrief (v : string)
| SetStats (v : option GameStats)
| SetIsLoading (v : bool).

Definition apply (a : t) (c : Call) : t :=
  match c with
  | SetGameState v => setGameState v a
  | SetBriefing v => setBriefing v a
  | SetDebrief v => setDebrief v a
  | SetStats v => setStats v a
  | SetIsLoading v => setIsLoading v a
  end.

(** Lines 23-25. *)
Definition handleStartGame : list Call := [SetGameState PLAYING].
(** The ABORT button, line 90. *)
Definition abort : list Call := [SetGameState MENU].
(** Lines 28-30: up to the [await]. *)
Definition handleGameOver (finalStats : GameStats) : list Call :=
  [SetStats (Some finalStats); SetGameState GAME_OVER; SetIsLoading true].
(** Lines 32-33: after the [await], with the text it gave. *)
Definition debriefArrives (text : string) : list Call :=
  [SetDebrief text; SetIsLoading false].
(** Lines 37-39. *)
Definition handleRestart : list Call :=
  [SetGameState MENU; SetStats None; SetDebrief EmptyString].
(** Lines 18 and 41. *)
Definition briefingArrives (text : string) : list Call := [SetBriefing text].

Inductive Happening : Type :=
| StartGame
| Abort
| GameOver (finalStats : GameStats)
| DebriefArrives (text : string)
| Restart
| BriefingArrives (text : string).

Definition calls (h : Happening) : list Call :=
  match h with
  | StartGame => handleStartGame
  | Abort => abort
  | GameOver st => handleGameOver st
  | DebriefArrives text => debriefArrives text
  | Restart => handleRestart
  | BriefingArrives text => briefingArrives text
  end.

(** The component after the given happenings, and after the first [n]
    [set...] calls of one more: every state a render can see, whether the
    calls of a handler are batched or not. *)
Definition after (hs : list Happening) : t :=
  fold_left apply (flat_map calls hs) initial.

Definition during (hs : list Happening) (h : Happening) (n : nat) : t :=
  fold_left apply (firstn n (calls h)) (after hs).

(** Line 99: the game-over screen is rendered. *)
Definition showsGameOver (a : t) : bool :=
  match gameState a, stats a with
  | GAME_OVER, Some _ => true
  | _, _ => false
  end.

(** Line 86: the canvas is mounted. *)
Definition showsCanvas (a : t) : bool :=
  match gameState a with PLAYING => true | _ => false end.
End App.

(** ** What never changes in a target *)

Definition sameTarget (e e' : Enemy.t) : Prop :=
  Enemy.id e' = Enemy.id e /\
  Enemy.x e' = Enemy.x e /\ Enemy.y e' = Enemy.y e /\
  Enemy.width e' = Enemy.width e /\ Enemy.height e' = Enemy.height e /\
  Enemy.maxHp e' = Enemy.maxHp e /\ Enemy.spawnTime e' = Enemy.spawnTime e.

(** ** What a target can still yield *)

(** A standing target with [hp] points of health can still yield [hp - 1]
    body shots and a head shot: [hp + 2] points. *)
Definition potential (es : list Enemy.t) : Z :=
  fold_right (fun e acc => ((if alive e then Enemy.hp e + 2 else 0) + acc)%Z)
             0%Z es.

Definition withinBudget (r : Refs) : Prop :=
  (scoreRef r + potential (enemiesRef r) <= 5 * enemiesSpawnedRef r)%Z.

(** Every tick shows the same image. *)
Definition sameImage (image : list Z) (ticks : list Tick) : Prop :=
  Forall (fun t => imageData (motion t) = image) ticks.

Definition noHits (r : Refs) : Prop :=
  scoreRef r = 0%Z /\ headshotsRef r = 0%Z /\ bodyshotsRef r = 0%Z /\
  enemiesDestroyedRef r = 0%Z.

Definition noHitStats (st : GameStats) : Prop :=
  score st = 0%Z /\ headshots st = 0%Z /\ bodyshots st = 0%Z /\
  enemiesDestroyed st = 0%Z.

(** The cells of a session in which nothing has moved so far. *)
Definition stillSoFar (image : list Z) (r : Refs) : Prop :=
  noHits r /\ cursorRef r = None /\
  (prevFrameDataRef r = None \/ prevFrameDataRef r = Some image).

(** ** What a pass does, target by target *)










(** ** The targets a sweep removes *)

(** The array after the spawn step of a frame (lines 99-115). *)
Definition pushedArray (t : Tick) (r : Refs) : list Enemy.t :=
  enemiesRef (spawnStep (timestamp t) (inject_Z (canvasWidth t))
                        (inject_Z (canvasHeight t)) (draws t) (startClock t r)).

(** How many elements the filter of lines 142-152 removes on one frame, and
    over a run of frames. *)
Definition droppedAt (s : Session) (t : Tick) : nat :=
  if requested s && ready t then
    (List.length (pushedArray t (refs s))
     - List.length (sweepEnemies (timestamp t) (pushedArray t (refs s))))%nat
  else 0%nat.

Fixpoint droppedFrom (s : Session) (ticks : list Tick) : nat :=
  match ticks with
  | [] => 0%nat
  | t :: rest => (droppedAt s t + droppedFrom (frame s t) rest)%nat
  end.

(** ** One moving pixel *)



(** ** The session and the targets destroyed in it *)


(** ** The arithmetic of the source in binary64

    The lines whose result rounding can change, over the machine's doubles
    ([float] is IEEE 754 binary64, as a JavaScript number is). *)



(** Line 100. *)
Definition size64 (draw : float) : float := (80 + draw * 40)%float.

(** Line 144. *)
Definition isExpired64 (timestamp spawnTime : float) : bool :=
  (5000 <? timestamp - spawnTime)%float.

(** Lines 155-156 and the test of line 159. *)
Definition remaining64 (timestamp start : float) : float :=
  let elapsed := ((timestamp - start) / 1000)%float in
  let left := (60 - elapsed)%float in
  if (left <? 0)%float then 0%float else left.

Definition gameOver64 (timestamp start : float) : bool :=
  (remaining64 timestamp start <=? 0)%float.

(** * Properties *)

(** ** Boolean comparisons against their propositions *)

Lemma Qltb_true (a b : Q) : Qltb a b = true <-> a < b.
Proof.
  unfold Qltb. rewrite negb_true_iff, <- not_true_iff_false, Qle_bool_iff.
  split; [apply Qnot_le_lt | apply Qlt_not_le].
Qed.

Lemma Qltb_false (a b : Q) : Qltb a b = false <-> b <= a.
Proof.
  unfold Qltb. rewrite negb_false_iff. apply Qle_bool_iff.
Qed.

Lemma Qleb_true (a b : Q) : Qleb a b = true <-> a <= b.
Proof. apply Qle_bool_iff. Qed.

Lemma Qleb_false (a b : Q) : Qleb a b = false <-> b < a.
Proof.
  unfold Qleb. rewrite <- not_true_iff_false, Qle_bool_iff.
  split; [apply Qnot_le_lt | apply Qlt_not_le].
Qed.

Lemma resolveEnemy_outcome (ap : list Point.t) (ts : Q) (r : Refs) (e : Enemy.t) :
  Outcome ap ts r e (resolveEnemy ap ts r e).
Proof.
  unfold resolveEnemy.
  destruct (coolingDown ts e) eqn:Hcool.
  - apply NoHit. intros [Hc _]. congruence.
  - destruct (hitsInRect e ap >? HIT_PIXEL_COUNT_THRESHOLD)%Z eqn:Hcount.
    + assert (Hconf : confirmed ap ts e).
      { split; [assumption | apply Z.gtb_lt in Hcount; exact Hcount]. }
      fold (hitCentroidY ap e).
      destruct (Qltb (hitCentroidY ap e) (headThreshold e)) eqn:Hhead.
      * apply Qltb_true in Hhead. cbn. now apply HeadHit.
      * apply Qltb_false in Hhead. cbn. now apply BodyHit.
    + apply NoHit. intros [_ Hc]. apply Z.gtb_lt in Hc. congruence.
Qed.

Lemma resolveEnemy_enemy (ap : list Point.t) (ts : Q) (r : Refs) (e : Enemy.t) :
  snd (fst (resolveEnemy ap ts r e)) = enemyAfter ap ts e.
Proof.
  unfold enemyAfter, resolveEnemy.
  destruct (coolingDown ts e); [reflexivity |].
  destruct (hitsInRect e ap >? HIT_PIXEL_COUNT_THRESHOLD)%Z; [| reflexivity].
  destruct (Qltb _ _); reflexivity.
Qed.

Lemma enemyAfter_outcome (ap : list Point.t) (ts : Q) (e : Enemy.t) :
  enemyAfter ap ts e = e \/
  (confirmed ap ts e /\
   (enemyAfter ap ts e = hitEnemy ts 0 e \/
    enemyAfter ap ts e = hitEnemy ts (Enemy.hp e - 1) e)).
Proof.
  unfold enemyAfter.
  destruct (resolveEnemy_outcome ap ts initialRefs e); cbn; auto.
Qed.

(** ** The array after the collision pass and after a whole frame *)

Lemma forEachEnemy_enemies (ap : list Point.t) (ts : Q) (es : list Enemy.t) :
  forall r, snd (fst (forEachEnemy ap ts r es)) = map (enemyAfter ap ts) es.
Proof.
  induction es as [| e rest IH]; intros r; [reflexivity |].
  cbn [forEachEnemy map].
  pose proof (resolveEnemy_enemy ap ts r e) as He.
  destruct (resolveEnemy ap ts r e) as [[r1 e1] h]. cbn in He. subst e1.
  specialize (IH r1).
  destruct (forEachEnemy ap ts r1 rest) as [[r2 rest'] hs]. cbn in IH |- *.
  now rewrite IH.
Qed.

Lemma forEachEnemy_frame (ap : list Point.t) (ts : Q) (es : list Enemy.t) :
  forall r,
    let r' := fst (fst (forEachEnemy ap ts r es)) in
    enemiesRef r' = enemiesRef r /\
    lastSpawnTimeRef r' = lastSpawnTimeRef r /\
    gameStartTimeRef r' = gameStartTimeRef r /\
    prevFrameDataRef r' = prevFrameDataRef r /\
    cursorRef r' = cursorRef r /\
    enemiesSpawnedRef r' = enemiesSpawnedRef r.
Proof.
  induction es as [| e rest IH]; intros r; [cbn; auto 6 |].
  cbn [forEachEnemy].
  pose proof (resolveEnemy_outcome ap ts r e) as Ho.
  destruct (resolveEnemy ap ts r e) as [[r1 e1] h].
  specialize (IH r1).
  destruct (forEachEnemy ap ts r1 rest) as [[r2 rest'] hs]. cbn in IH |- *.
  destruct IH as (E1 & E2 & E3 & E4 & E5 & E6).
  rewrite E1, E2, E3, E4, E5, E6.
  inversion Ho; subst; try (destruct (Enemy.hp e - 1 <=? 0)%Z); cbn; auto 6.
Qed.

Lemma collisionDetection_enemies (ap : list Point.t) (ts : Q) (r : Refs) :
  enemiesRef (fst (collisionDetection ap ts r)) =
  map (enemyAfter ap ts) (enemiesRef r).
Proof.
  unfold collisionDetection.
  pose proof (forEachEnemy_enemies ap ts (enemiesRef r) r) as H.
  destruct (forEachEnemy ap ts r (enemiesRef r)) as [[r1 es] hs].
  cbn in H |- *. exact H.
Qed.

Lemma survivors_cons (f : FrameView) (e : Enemy.t) (es : list Enemy.t) :
  survivors f (e :: es) =
  match enemyFrame f e with Some e' => [e'] | None => [] end ++ survivors f es.
Proof. reflexivity. Qed.

Lemma survivors_app (f : FrameView) (es es' : list Enemy.t) :
  survivors f (es ++ es') = survivors f es ++ survivors f es'.
Proof. apply flat_map_app. Qed.

Lemma sweep_survivors (ts : Q) (es : list Enemy.t) :
  sweepEnemies ts es = survivors (ts, None) es.
Proof.
  unfold sweepEnemies.
  induction es as [| e rest IH]; [reflexivity |].
  rewrite survivors_cons, <- IH. unfold enemyFrame. cbn [map filter fst snd].
  destruct (keepEnemy ts (clearFlash ts e)); reflexivity.
Qed.

Lemma pass_survivors (ts : Q) (ap : list Point.t) (es : list Enemy.t) :
  map (enemyAfter ap ts) (sweepEnemies ts es) = survivors (ts, Some ap) es.
Proof.
  unfold sweepEnemies.
  induction es as [| e rest IH]; [reflexivity |].
  rewrite survivors_cons, <- IH. unfold enemyFrame. cbn [map filter fst snd].
  destruct (keepEnemy ts (clearFlash ts e)); reflexivity.
Qed.

Lemma updateGameState_refs (ts w h : Q) (d : SpawnDraws) (r : Refs) :
  fst (fst (updateGameState ts w h d r)) =
  set_enemiesRef (sweepEnemies ts (enemiesRef (spawnStep ts w h d r)))
                 (spawnStep ts w h d r).
Proof.
  unfold updateGameState. destruct (Qleb _ _); reflexivity.
Qed.

Lemma spawnStep_prev (ts w h : Q) (d : SpawnDraws) (r : Refs) :
  prevFrameDataRef (spawnStep ts w h d r) = prevFrameDataRef r.
Proof. unfold spawnStep. destruct (spawnDue ts r); reflexivity. Qed.

Lemma detect_enemies (m : MotionInput) (w h ts : Q) (r : Refs) :
  enemiesRef (fst (detectMotionAndCollisions m w h ts r)) =
  match activePixelsOf m w r with
  | Some ap => map (enemyAfter ap ts) (enemiesRef r)
  | None => enemiesRef r
  end.
Proof.
  unfold detectMotionAndCollisions, activePixelsOf.
  destruct (mCanvas m); cbn [negb andb]; [| reflexivity].
  destruct (mCtx m); cbn [negb]; [| reflexivity].
  destruct (prevFrameDataRef r) as [prev |]; [| reflexivity].
  destruct (sameLength prev (imageData m)); cbn [negb]; [| reflexivity].
  match goal with
  | |- context [collisionDetection ?ap ?t ?r0] =>
      pose proof (collisionDetection_enemies ap t r0) as H;
      destruct (collisionDetection ap t r0) as [r3 hs]
  end.
  cbn in H |- *. exact H.
Qed.

(** One frame acts on the array element by element: every element present
    after the spawn step goes through [enemyFrame], independently. *)
Lemma gameLoop_enemies (t : Tick) (r : Refs) :
  enemiesRef (fst (fst (gameLoop t r))) =
  if ready t then
    let w := inject_Z (canvasWidth t) in
    let h := inject_Z (canvasHeight t) in
    survivors (timestamp t, activePixelsOf (motion t) w r)
              (enemiesRef (spawnStep (timestamp t) w h (draws t) (startClock t r)))
  else enemiesRef r.
Proof.
  assert (Hstart : enemiesRef (startClock t r) = enemiesRef r).
  { unfold startClock. destruct (Qeq_bool _ _); reflexivity. }
  assert (Hprev : prevFrameDataRef (startClock t r) = prevFrameDataRef r).
  { unfold startClock. destruct (Qeq_bool _ _); reflexivity. }
  unfold gameLoop, ready.
  destruct (canvas t && videoReady t); cbn [andb]; [| exact Hstart].
  destruct (ctx t); [| exact Hstart].
  cbv zeta.
  set (w := inject_Z (canvasWidth t)). set (h := inject_Z (canvasHeight t)).
  pose proof (updateGameState_refs (timestamp t) w h (draws t) (startClock t r)) as Hu.
  destruct (updateGameState (timestamp t) w h (draws t) (startClock t r))
    as [[r1 over] isRunning].
  cbn in Hu.
  pose proof (detect_enemies (motion t) w h (timestamp t) r1) as Hd.
  destruct (detectMotionAndCollisions (motion t) w h (timestamp t) r1) as [r2 pass].
  cbn in Hd |- *. rewrite Hd.
  assert (Hap : activePixelsOf (motion t) w r1 = activePixelsOf (motion t) w r).
  { unfold activePixelsOf. subst r1. cbn. now rewrite spawnStep_prev, Hprev. }
  rewrite Hap. subst r1. cbn [enemiesRef set_enemiesRef].
  destruct (activePixelsOf (motion t) w r) as [ap |].
  - apply pass_survivors.
  - apply sweep_survivors.
Qed.

(** ** Invariants of a session *)

Lemma fold_frame_inv (P : Session -> Prop) :
  (forall s t, P s -> P (frame s t)) ->
  forall ticks s, P s -> P (fold_left frame ticks s).
Proof.
  intros Hstep ticks. induction ticks as [| t rest IH]; intros s Hs; cbn; auto.
Qed.

Lemma clearFlash_hp (ts : Q) (e : Enemy.t) :
  Enemy.hp (clearFlash ts e) = Enemy.hp e /\
  Enemy.maxHp (clearFlash ts e) = Enemy.maxHp e /\
  Enemy.id (clearFlash ts e) = Enemy.id e /\
  Enemy.lastHitTime (clearFlash ts e) = Enemy.lastHitTime e.
Proof. unfold clearFlash. destruct (_ && _); cbn; auto. Qed.

Lemma keepEnemy_alive (ts : Q) (e : Enemy.t) :
  keepEnemy ts e = true -> (0 < Enemy.hp e)%Z.
Proof.
  unfold keepEnemy, isDead. intros H. apply andb_prop in H as [H _].
  apply negb_true_iff, Z.leb_gt in H. exact H.
Qed.

Lemma enemyFrame_hpOK (f : FrameView) (e e' : Enemy.t) :
  hpOK e -> enemyFrame f e = Some e' -> hpOK e'.
Proof.
  unfold enemyFrame, hpOK. intros [Hmax Hhp].
  destruct (clearFlash_hp (fst f) e) as (Eh & Em & _).
  destruct (keepEnemy (fst f) (clearFlash (fst f) e)) eqn:Hkeep; [| discriminate].
  apply keepEnemy_alive in Hkeep.
  destruct (snd f) as [ap |]; intros [= <-].
  - destruct (enemyAfter_outcome ap (fst f) (clearFlash (fst f) e))
      as [-> | [_ [-> | ->]]]; cbn; lia.
  - lia.
Qed.

Lemma survivors_Forall (P : Enemy.t -> Prop) (f : FrameView) (es : list Enemy.t) :
  (forall e e', P e -> enemyFrame f e = Some e' -> P e') ->
  Forall P es -> Forall P (survivors f es).
Proof.
  intros Hstep Hall. induction Hall as [| e rest He _ IH]; [constructor |].
  rewrite survivors_cons. destruct (enemyFrame f e) as [e' |] eqn:Hf; cbn; auto.
  constructor; eauto.
Qed.

Lemma spawnEnemy_hpOK (ts w h : Q) (d : SpawnDraws) : hpOK (spawnEnemy ts w h d).
Proof. unfold hpOK; cbn; lia. Qed.

Lemma spawnStep_enemies (ts w h : Q) (d : SpawnDraws) (r : Refs) :
  enemiesRef (spawnStep ts w h d r) =
  enemiesRef r ++ (if spawnDue ts r then [spawnEnemy ts w h d] else []).
Proof.
  unfold spawnStep. destruct (spawnDue ts r); cbn; [reflexivity |].
  now rewrite app_nil_r.
Qed.

Lemma startClock_frame (t : Tick) (r : Refs) :
  enemiesRef (startClock t r) = enemiesRef r /\
  lastSpawnTimeRef (startClock t r) = lastSpawnTimeRef r /\
  prevFrameDataRef (startClock t r) = prevFrameDataRef r /\
  scoreRef (startClock t r) = scoreRef r /\
  headshotsRef (startClock t r) = headshotsRef r /\
  bodyshotsRef (startClock t r) = bodyshotsRef r.
Proof. unfold startClock. destruct (Qeq_bool _ _); cbn; auto 6. Qed.

Lemma gameLoop_hpOK (t : Tick) (r : Refs) :
  Forall hpOK (enemiesRef r) ->
  Forall hpOK (enemiesRef (fst (fst (gameLoop t r)))).
Proof.
  intros H. rewrite gameLoop_enemies. destruct (ready t); [| exact H].
  cbv zeta. apply survivors_Forall; [apply enemyFrame_hpOK |].
  rewrite spawnStep_enemies.
  destruct (startClock_frame t r) as (-> & _).
  apply Forall_app. split; [exact H |].
  destruct (spawnDue _ _); constructor; [apply spawnEnemy_hpOK | constructor].
Qed.

Lemma frame_refs (s : Session) (t : Tick) :
  refs (frame s t) = if requested s then fst (fst (gameLoop t (refs s))) else refs s.
Proof.
  unfold frame. destruct (requested s); [| reflexivity].
  destruct (gameLoop t (refs s)) as [[r evs] again]. reflexivity.
Qed.

Lemma run_hpOK (ticks : list Tick) : Forall hpOK (enemiesRef (refs (run ticks))).
Proof.
  unfold run.
  apply (fold_frame_inv (fun s => Forall hpOK (enemiesRef (refs s)))).
  - intros s t H. rewrite frame_refs. destruct (requested s); [| exact H].
    now apply gameLoop_hpOK.
  - constructor.
Qed.

(** Counters. *)

Lemma resolveEnemy_scoreOK (ap : list Point.t) (ts : Q) (r : Refs) (e : Enemy.t) :
  scoreOK r -> scoreOK (fst (fst (resolveEnemy ap ts r e))).
Proof.
  unfold scoreOK. intros H.
  pose proof (resolveEnemy_outcome ap ts r e) as Ho.
  destruct (resolveEnemy ap ts r e) as [[r1 e1] h].
  inversion Ho; subst; try (destruct (Enemy.hp e - 1 <=? 0)%Z);
    cbn [fst scoreRef headshotsRef bodyshotsRef addHeadshot addBodyshot addDestroyed];
    lia.
Qed.

Lemma forEachEnemy_scoreOK (ap : list Point.t) (ts : Q) (es : list Enemy.t) :
  forall r, scoreOK r -> scoreOK (fst (fst (forEachEnemy ap ts r es))).
Proof.
  induction es as [| e rest IH]; intros r H; [exact H |].
  cbn [forEachEnemy].
  pose proof (resolveEnemy_scoreOK ap ts r e H) as H1.
  destruct (resolveEnemy ap ts r e) as [[r1 e1] h]. cbn in H1.
  specialize (IH r1 H1).
  destruct (forEachEnemy ap ts r1 rest) as [[r2 rest'] hs]. exact IH.
Qed.

Lemma collisionDetection_scoreOK (ap : list Point.t) (ts : Q) (r : Refs) :
  scoreOK r -> scoreOK (fst (collisionDetection ap ts r)).
Proof.
  intros H. unfold collisionDetection.
  pose proof (forEachEnemy_scoreOK ap ts (enemiesRef r) r H) as H1.
  destruct (forEachEnemy ap ts r (enemiesRef r)) as [[r1 es] hs]. exact H1.
Qed.

Lemma detect_scoreOK (m : MotionInput) (w h ts : Q) (r : Refs) :
  scoreOK r -> scoreOK (fst (detectMotionAndCollisions m w h ts r)).
Proof.
  intros H. unfold detectMotionAndCollisions.
  destruct (mCanvas m); cbn [negb]; [| exact H].
  destruct (mCtx m); cbn [negb]; [| exact H].
  destruct (prevFrameDataRef r) as [prev |]; [| exact H].
  destruct (sameLength prev (imageData m)); cbn [negb]; [| exact H].
  match goal with
  | |- context [collisionDetection ?ap ?t ?r0] =>
      pose proof (collisionDetection_scoreOK ap t r0 H) as H1;
      destruct (collisionDetection ap t r0) as [r3 hs]
  end.
  exact H1.
Qed.

Lemma updateGameState_scoreOK (ts w h : Q) (d : SpawnDraws) (r : Refs) :
  scoreOK r -> scoreOK (fst (fst (updateGameState ts w h d r))).
Proof.
  intros H. rewrite updateGameState_refs. unfold scoreOK, spawnStep in *.
  destruct (spawnDue ts r);
    cbn [scoreRef headshotsRef bodyshotsRef set_enemiesRef]; exact H.
Qed.

Lemma gameLoop_scoreOK (t : Tick) (r : Refs) :
  scoreOK r -> scoreOK (fst (fst (gameLoop t r))).
Proof.
  intros H.
  assert (H0 : scoreOK (startClock t r)).
  { unfold scoreOK in *. destruct (startClock_frame t r) as (_ & _ & _ & -> & -> & ->).
    exact H. }
  unfold gameLoop.
  destruct (canvas t && videoReady t); [| exact H0].
  destruct (ctx t); [| exact H0].
  cbv zeta.
  match goal with
  | |- context [updateGameState ?a ?b ?c ?d ?e] =>
      pose proof (updateGameState_scoreOK a b c d e H0) as H1;
      destruct (updateGameState a b c d e) as [[r1 over] isRunning]
  end.
  cbn in H1.
  match goal with
  | |- context [detectMotionAndCollisions ?a ?b ?c ?d ?e] =>
      pose proof (detect_scoreOK a b c d e H1) as H2;
      destruct (detectMotionAndCollisions a b c d e) as [r2 pass]
  end.
  exact H2.
Qed.

Lemma run_scoreOK (ticks : list Tick) : scoreOK (refs (run ticks)).
Proof.
  unfold run. apply (fold_frame_inv (fun s => scoreOK (refs s))).
  - intros s t H. rewrite frame_refs. destruct (requested s); [| exact H].
    now apply gameLoop_scoreOK.
  - reflexivity.
Qed.

(** ** One enemy across frames *)

Lemma coolingDown_false (ts : Q) (e : Enemy.t) :
  coolingDown ts e = false <-> HIT_COOLDOWN_MS <= ts - Enemy.lastHitTime e.
Proof. unfold coolingDown. apply Qltb_false. Qed.

Lemma keepEnemy_dead (ts : Q) (e : Enemy.t) :
  (Enemy.hp e <= 0)%Z -> keepEnemy ts (clearFlash ts e) = false.
Proof.
  intros H. unfold keepEnemy, isDead.
  destruct (clearFlash_hp ts e) as (-> & _).
  apply Z.leb_le in H. now rewrite H.
Qed.

Lemma follow_dead (e : Enemy.t) (r : Refs) (frames : list FrameView) :
  (Enemy.hp e <= 0)%Z -> follow e r frames = (r, []).
Proof.
  intros H. destruct frames as [| [ts pass] rest]; [reflexivity |].
  cbn [follow]. now rewrite keepEnemy_dead.
Qed.

Lemma enemyFrame_dead (f : FrameView) (e : Enemy.t) :
  (Enemy.hp e <= 0)%Z -> enemyFrame f e = None.
Proof. intros H. unfold enemyFrame. now rewrite keepEnemy_dead. Qed.

(** The hits resolved on one enemy are spaced by the cooldown: each comes at
    least [HIT_COOLDOWN_MS] after the enemy's [lastHitTime] and after every
    hit before it. *)
Lemma follow_spaced (frames : list FrameView) :
  forall e r,
    let hits := snd (follow e r frames) in
    (forall t h, In (t, h) hits -> HIT_COOLDOWN_MS <= t - Enemy.lastHitTime e) /\
    (forall t1 h1 t2 h2,
        In (t1, h1) hits -> In (t2, h2) hits -> t1 < t2 ->
        HIT_COOLDOWN_MS <= t2 - t1).
Proof.
  unfold HIT_COOLDOWN_MS.
  induction frames as [| [ts pass] rest IH]; intros e r; cbn [follow].
  - cbn. split; intros; contradiction.
  - destruct (clearFlash_hp ts e) as (_ & _ & _ & Hlast).
    destruct (keepEnemy ts (clearFlash ts e)); [| cbn; split; intros; contradiction].
    destruct pass as [ap |].
    + pose proof (resolveEnemy_outcome ap ts r (clearFlash ts e)) as Ho.
      destruct (resolveEnemy ap ts r (clearFlash ts e)) as [[r1 e2] h].
      specialize (IH e2 r1).
      destruct (follow e2 r1 rest) as [r2 hs]. cbn [snd] in IH |- *.
      destruct IH as [IH1 IH2].
      inversion Ho as [Hno | [Hcool Hcount] Hy | [Hcool Hcount] Hy];
        subst r1 e2 h; clear Ho; try clear Hy Hcount; cbn [hitList map app].
      * rewrite <- Hlast. split; assumption.
      * apply coolingDown_false in Hcool. unfold HIT_COOLDOWN_MS in Hcool.
        rewrite Hlast in Hcool. cbn [hitEnemy Enemy.lastHitTime Enemy.set_isHit
          Enemy.set_lastHitTime] in IH1.
        split.
        -- intros t h [[= <- <-] | Hin]; [exact Hcool |].
           specialize (IH1 _ _ Hin). lra.
        -- intros t1 h1 t2 h2 [[= <- <-] | Hin1] [[= <- <-] | Hin2] Hlt.
           ++ lra.
           ++ exact (IH1 _ _ Hin2).
           ++ specialize (IH1 _ _ Hin1). lra.
           ++ exact (IH2 _ _ _ _ Hin1 Hin2 Hlt).
      * apply coolingDown_false in Hcool. unfold HIT_COOLDOWN_MS in Hcool.
        rewrite Hlast in Hcool. cbn [hitEnemy Enemy.lastHitTime Enemy.set_isHit
          Enemy.set_lastHitTime] in IH1.
        split.
        -- intros t h [[= <- <-] | Hin]; [exact Hcool |].
           specialize (IH1 _ _ Hin). lra.
        -- intros t1 h1 t2 h2 [[= <- <-] | Hin1] [[= <- <-] | Hin2] Hlt.
           ++ lra.
           ++ exact (IH1 _ _ Hin2).
           ++ specialize (IH1 _ _ Hin1). lra.
           ++ exact (IH2 _ _ _ _ Hin1 Hin2 Hlt).
    + specialize (IH (clearFlash ts e) r). rewrite Hlast in IH. exact IH.
Qed.

(** Over its whole life an enemy moves the destroyed counter by at most one,
    and by exactly one when a headshot was resolved on it. *)
Lemma follow_destroyed (frames : list FrameView) :
  forall e r,
    let r' := fst (follow e r frames) in
    let hits := snd (follow e r frames) in
    (enemiesDestroyedRef r' = enemiesDestroyedRef r \/
     enemiesDestroyedRef r' = (enemiesDestroyedRef r + 1)%Z) /\
    (forall t, In (t, Critical) hits ->
               enemiesDestroyedRef r' = (enemiesDestroyedRef r + 1)%Z).
Proof.
  induction frames as [| [ts pass] rest IH]; intros e r; cbn [follow].
  - cbn. split; [now left | intros; contradiction].
  - destruct (clearFlash_hp ts e) as (Hhp & _).
    destruct (keepEnemy ts (clearFlash ts e)) eqn:Hkeep;
      [| cbn; split; [now left | intros; contradiction]].
    apply keepEnemy_alive in Hkeep.
    destruct pass as [ap |]; [| apply IH].
    pose proof (resolveEnemy_outcome ap ts r (clearFlash ts e)) as Ho.
    destruct (resolveEnemy ap ts r (clearFlash ts e)) as [[r1 e2] h].
    inversion Ho as [Hno | Hconf Hy | Hconf Hy]; subst r1 e2 h; clear Ho.
    + specialize (IH (clearFlash ts e) r).
      destruct (follow (clearFlash ts e) r rest) as [r2 hs]. exact IH.
    + rewrite follow_dead by (cbn; lia). cbn. split; [now right | reflexivity].
    + destruct (Enemy.hp (clearFlash ts e) - 1 <=? 0)%Z eqn:Hlow.
      * apply Z.leb_le in Hlow.
        rewrite follow_dead by (cbn; lia). cbn.
        split; [now right |]. intros t [[=] | []].
      * specialize (IH (hitEnemy ts (Enemy.hp (clearFlash ts e) - 1) (clearFlash ts e))
                       (addBodyshot r)).
        destruct (follow _ (addBodyshot r) rest) as [r2 hs].
        cbn [fst snd hitList map app enemiesDestroyedRef addBodyshot] in IH |- *.
        destruct IH as [IH1 IH2]. split; [exact IH1 |].
        intros t [[=] | Hin]. exact (IH2 _ Hin).
Qed.

(** ** Subsequences *)

Lemma subseq_refl {A : Type} (l : list A) : subseq l l.
Proof. induction l; constructor; assumption. Qed.

Lemma subseq_nil_l {A : Type} (l : list A) : subseq [] l.
Proof. induction l; constructor; assumption. Qed.

Lemma subseq_trans {A : Type} (l m n : list A) :
  subseq l m -> subseq m n -> subseq l n.
Proof.
  intros Hlm Hmn. revert l Hlm.
  induction Hmn as [| a m n _ IH | a m n _ IH]; intros l Hlm.
  - exact Hlm.
  - constructor. now apply IH.
  - inversion Hlm; subst.
    + constructor. now apply IH.
    + apply subseq_take. now apply IH.
Qed.

Lemma subseq_app {A : Type} (l1 m1 l2 m2 : list A) :
  subseq l1 m1 -> subseq l2 m2 -> subseq (l1 ++ l2) (m1 ++ m2).
Proof.
  intros H1 H2. induction H1; cbn; try constructor; assumption.
Qed.

Lemma subseq_In {A : Type} (l m : list A) (a : A) :
  subseq l m -> In a l -> In a m.
Proof.
  intros H. induction H as [| b l m _ IH | b l m _ IH]; cbn; intros Hin.
  - exact Hin.
  - right. now apply IH.
  - destruct Hin as [-> | Hin]; [now left | right; now apply IH].
Qed.

Lemma subseq_NoDup {A : Type} (l m : list A) :
  subseq l m -> NoDup m -> NoDup l.
Proof.
  intros H. induction H as [| b l m Hs IH | b l m Hs IH]; intros Hm.
  - exact Hm.
  - inversion Hm; subst. now apply IH.
  - inversion Hm as [| ? ? Hnotin Hrest]; subst. constructor.
    + intros Hin. apply Hnotin. eapply subseq_In; eassumption.
    + now apply IH.
Qed.

(** ** Identities of the live enemies *)

Lemma enemyFrame_id (f : FrameView) (e e' : Enemy.t) :
  enemyFrame f e = Some e' -> Enemy.id e' = Enemy.id e.
Proof.
  unfold enemyFrame.
  destruct (clearFlash_hp (fst f) e) as (_ & _ & Hid & _).
  destruct (keepEnemy _ _); [| discriminate].
  destruct (snd f) as [ap |]; intros [= <-]; [| exact Hid].
  destruct (enemyAfter_outcome ap (fst f) (clearFlash (fst f) e))
    as [-> | [_ [-> | ->]]]; exact Hid.
Qed.

Lemma survivors_ids (f : FrameView) (es : list Enemy.t) :
  subseq (map Enemy.id (survivors f es)) (map Enemy.id es).
Proof.
  induction es as [| e rest IH]; [constructor |].
  rewrite survivors_cons.
  destruct (enemyFrame f e) as [e' |] eqn:Hf; cbn [app map].
  - rewrite (enemyFrame_id _ _ _ Hf). now apply subseq_take.
  - now apply subseq_skip.
Qed.

Lemma frame_liveIds (s : Session) (t : Tick) :
  subseq (liveIds (refs (frame s t))) (liveIds (refs s) ++ spawnsAt s t).
Proof.
  unfold liveIds, spawnsAt. rewrite frame_refs.
  destruct (requested s); cbn [andb];
    [| rewrite app_nil_r; apply subseq_refl].
  rewrite gameLoop_enemies.
  destruct (ready t); cbn [andb]; [| rewrite app_nil_r; apply subseq_refl].
  cbv zeta. eapply subseq_trans; [apply survivors_ids |].
  rewrite spawnStep_enemies, map_app.
  destruct (startClock_frame t (refs s)) as (-> & Hlast & _).
  unfold spawnDue. rewrite Hlast.
  apply subseq_app; [apply subseq_refl |].
  destruct (Qgtb _ _); apply subseq_refl.
Qed.

Lemma fold_frame_ids (ticks : list Tick) :
  forall s,
    subseq (liveIds (refs (fold_left frame ticks s)))
           (liveIds (refs s) ++ spawnIdsFrom s ticks).
Proof.
  induction ticks as [| t rest IH]; intros s; cbn [fold_left spawnIdsFrom].
  - rewrite app_nil_r. apply subseq_refl.
  - eapply subseq_trans; [apply IH |].
    rewrite app_assoc. apply subseq_app; [apply frame_liveIds | apply subseq_refl].
Qed.

(** ** The loop *)

Lemma gameLoop_ready (t : Tick) (r : Refs) :
  ready t = true ->
  gameLoop t r =
  let w := inject_Z (canvasWidth t) in
  let h := inject_Z (canvasHeight t) in
  let '(r1, over, isRunning) :=
    updateGameState (timestamp t) w h (draws t) (startClock t r) in
  let '(r2, pass) := detectMotionAndCollisions (motion t) w h (timestamp t) r1 in
  (r2, overEvent over ++ passEvent (timestamp t) pass, isRunning).
Proof.
  unfold ready, gameLoop. intros H.
  apply andb_prop in H as [H ->]. now rewrite H.
Qed.

Lemma spawnStep_counters (ts w h : Q) (d : SpawnDraws) (r : Refs) :
  gameStartTimeRef (spawnStep ts w h d r) = gameStartTimeRef r /\
  scoreRef (spawnStep ts w h d r) = scoreRef r /\
  headshotsRef (spawnStep ts w h d r) = headshotsRef r /\
  bodyshotsRef (spawnStep ts w h d r) = bodyshotsRef r /\
  enemiesDestroyedRef (spawnStep ts w h d r) = enemiesDestroyedRef r.
Proof. unfold spawnStep. destruct (spawnDue ts r); cbn; auto 6. Qed.

Lemma updateGameState_result (ts w h : Q) (d : SpawnDraws) (r : Refs) :
  let r2 := fst (fst (updateGameState ts w h d r)) in
  let over := Qleb (remaining ts r) 0 in
  updateGameState ts w h d r =
  (r2, (if over then Some (statsOf r2) else None), negb over).
Proof.
  cbv zeta. rewrite updateGameState_refs. unfold updateGameState.
  assert (E : remaining ts
                (set_enemiesRef
                   (sweepEnemies ts (enemiesRef (spawnStep ts w h d r)))
                   (spawnStep ts w h d r)) = remaining ts r).
  { unfold remaining. cbn [gameStartTimeRef set_enemiesRef].
    destruct (spawnStep_counters ts w h d r) as (-> & _). reflexivity. }
  rewrite E. destruct (Qleb (remaining ts r) 0); reflexivity.
Qed.

Lemma detect_pass (m : MotionInput) (w h ts : Q) (r : Refs) (ap : list Point.t) :
  activePixelsOf m w r = Some ap ->
  exists hits, snd (detectMotionAndCollisions m w h ts r) = Some hits.
Proof.
  unfold activePixelsOf, detectMotionAndCollisions.
  destruct (mCanvas m); cbn [andb negb]; [| discriminate].
  destruct (mCtx m); cbn [negb]; [| discriminate].
  destruct (prevFrameDataRef r) as [prev |]; [| discriminate].
  destruct (sameLength prev (imageData m)); cbn [negb]; [| discriminate].
  intros _.
  match goal with
  | |- context [collisionDetection ?a ?b ?c] =>
      destruct (collisionDetection a b c) as [r3 hs]
  end.
  now exists hs.
Qed.

Lemma detect_no_pass (m : MotionInput) (w h ts : Q) (r : Refs) :
  activePixelsOf m w r = None ->
  snd (detectMotionAndCollisions m w h ts r) = None.
Proof.
  unfold activePixelsOf, detectMotionAndCollisions.
  destruct (mCanvas m); cbn [andb negb]; [| reflexivity].
  destruct (mCtx m); cbn [negb]; [| reflexivity].
  destruct (prevFrameDataRef r) as [prev |]; [| reflexivity].
  destruct (sameLength prev (imageData m)); cbn [negb]; [discriminate | reflexivity].
Qed.

Lemma frame_stopped (s : Session) (t : Tick) :
  requested s = false -> frame s t = s.
Proof. intros H. unfold frame. now rewrite H. Qed.

Lemma fold_frame_stopped (ticks : list Tick) (s : Session) :
  requested s = false -> fold_left frame ticks s = s.
Proof.
  intros H. induction ticks as [| t rest IH]; [reflexivity |].
  cbn [fold_left]. now rewrite frame_stopped.
Qed.

Lemma updateGameState_prev (ts w h : Q) (d : SpawnDraws) (r : Refs) :
  prevFrameDataRef (fst (fst (updateGameState ts w h d r))) = prevFrameDataRef r.
Proof.
  rewrite updateGameState_refs. cbn [prevFrameDataRef set_enemiesRef].
  apply spawnStep_prev.
Qed.

Lemma activePixelsOf_prev (m : MotionInput) (w : Q) (r r' : Refs) :
  prevFrameDataRef r' = prevFrameDataRef r ->
  activePixelsOf m w r' = activePixelsOf m w r.
Proof. unfold activePixelsOf. now intros ->. Qed.

(** What one animation frame with the video ready adds to the session. *)
Lemma frame_ready (s : Session) (t : Tick) :
  requested s = true -> ready t = true ->
  let w := inject_Z (canvasWidth t) in
  let h := inject_Z (canvasHeight t) in
  let r0 := startClock t (refs s) in
  let r1 := fst (fst (updateGameState (timestamp t) w h (draws t) r0)) in
  let over := Qleb (remaining (timestamp t) r0) 0 in
  trace (frame s t) =
    trace s ++ (if over then [GameOverCall (statsOf r1)] else [])
            ++ passEvent (timestamp t)
                 (snd (detectMotionAndCollisions (motion t) w h (timestamp t) r1)) /\
  requested (frame s t) = negb over.
Proof.
  intros Hreq Hready. cbv zeta. unfold frame. rewrite Hreq.
  rewrite (gameLoop_ready _ _ Hready). cbv zeta.
  rewrite updateGameState_result. cbv zeta.
  destruct (detectMotionAndCollisions _ _ _ _ _) as [r2 pass].
  cbn [trace requested snd].
  destruct (Qleb _ 0); cbn [overEvent]; split; reflexivity.
Qed.

Lemma startClock_destroyed (t : Tick) (r : Refs) :
  enemiesDestroyedRef (startClock t r) = enemiesDestroyedRef r.
Proof. unfold startClock. destruct (Qeq_bool _ _); reflexivity. Qed.

(** [follow] moves its enemy exactly as the array element moves. *)
Lemma follow_step (ts : Q) (pass : option (list Point.t)) (rest : list FrameView)
      (e : Enemy.t) (r : Refs) :
  follow e r ((ts, pass) :: rest) =
  match enemyFrame (ts, pass) e with
  | None => (r, [])
  | Some e' =>
      match pass with
      | None => follow e' r rest
      | Some ap =>
          let '(r1, _, h) := resolveEnemy ap ts r (clearFlash ts e) in
          let '(r2, hs) := follow e' r1 rest in
          (r2, map (pair ts) (hitList h) ++ hs)
      end
  end.
Proof.
  cbn [follow]. unfold enemyFrame. cbn [fst snd].
  destruct (keepEnemy ts (clearFlash ts e)); [| reflexivity].
  destruct pass as [ap |]; [| reflexivity].
  pose proof (resolveEnemy_enemy ap ts r (clearFlash ts e)) as He.
  destruct (resolveEnemy ap ts r (clearFlash ts e)) as [[r1 e2] h].
  cbn in He. now subst e2.
Qed.

(** ** Destroyed, standing and spawned targets *)

Lemma aliveCount_cons (e : Enemy.t) (es : list Enemy.t) :
  aliveCount (e :: es) = ((if alive e then 1 else 0) + aliveCount es)%Z.
Proof.
  unfold aliveCount. cbn [filter]. destruct (alive e); cbn [List.length]; lia.
Qed.

Lemma aliveCount_app (es es' : list Enemy.t) :
  aliveCount (es ++ es') = (aliveCount es + aliveCount es')%Z.
Proof.
  unfold aliveCount. rewrite filter_app, length_app. lia.
Qed.

Lemma aliveCount_sweep (ts : Q) (es : list Enemy.t) :
  (aliveCount (sweepEnemies ts es) <= aliveCount es)%Z.
Proof.
  unfold sweepEnemies.
  induction es as [| e rest IH]; [apply Z.le_refl |].
  cbn [map filter]. rewrite (aliveCount_cons e).
  assert (Ha : alive (clearFlash ts e) = alive e).
  { unfold alive. now destruct (clearFlash_hp ts e) as (-> & _). }
  destruct (keepEnemy ts (clearFlash ts e)).
  - rewrite aliveCount_cons, Ha. lia.
  - destruct (alive e); lia.
Qed.

Lemma sweep_alive (ts : Q) (es : list Enemy.t) :
  Forall (fun e => alive e = true) (sweepEnemies ts es).
Proof.
  unfold sweepEnemies. apply Forall_forall. intros e He.
  apply filter_In in He as [_ He]. apply keepEnemy_alive in He.
  unfold alive. now apply Z.ltb_lt.
Qed.

Lemma forEachEnemy_accounts (ap : list Point.t) (ts : Q) (es : list Enemy.t) :
  Forall (fun e => alive e = true) es ->
  forall r,
    let r' := fst (fst (forEachEnemy ap ts r es)) in
    let es' := snd (fst (forEachEnemy ap ts r es)) in
    (enemiesDestroyedRef r' + aliveCount es' =
     enemiesDestroyedRef r + aliveCount es)%Z.
Proof.
  intros Hall. induction Hall as [| e rest He _ IH]; intros r; [reflexivity |].
  cbn [forEachEnemy].
  pose proof (resolveEnemy_outcome ap ts r e) as Ho.
  destruct (resolveEnemy ap ts r e) as [[r1 e1] h].
  specialize (IH r1).
  destruct (forEachEnemy ap ts r1 rest) as [[r2 rest'] hs].
  cbn [fst snd] in IH |- *. rewrite !aliveCount_cons, He.
  unfold alive in He. apply Z.ltb_lt in He.
  inversion Ho as [Hno | Hconf Hy | Hconf Hy]; subst r1 e1 h; clear Ho.
  - assert (Ha : alive e = true) by (unfold alive; now apply Z.ltb_lt).
    rewrite Ha. cbv iota. lia.
  - cbn [enemiesDestroyedRef addDestroyed addHeadshot] in IH.
    change (alive (hitEnemy ts 0 e)) with false. cbv iota. lia.
  - unfold alive at 1. cbn [hitEnemy Enemy.hp Enemy.set_isHit Enemy.set_lastHitTime
                                     Enemy.set_hp].
    destruct (Enemy.hp e - 1 <=? 0)%Z eqn:Hlow.
    + apply Z.leb_le in Hlow.
      assert (Hb : (0 <? Enemy.hp e - 1)%Z = false) by (apply Z.ltb_ge; lia).
      rewrite Hb. cbn [enemiesDestroyedRef addDestroyed addBodyshot] in IH. cbv iota. lia.
    + apply Z.leb_gt in Hlow.
      assert (Hb : (0 <? Enemy.hp e - 1)%Z = true) by (apply Z.ltb_lt; lia).
      rewrite Hb. cbn [enemiesDestroyedRef addBodyshot] in IH. cbv iota. lia.
Qed.

Lemma detect_accounts (m : MotionInput) (w h ts : Q) (r : Refs) :
  Forall (fun e => alive e = true) (enemiesRef r) ->
  let r' := fst (detectMotionAndCollisions m w h ts r) in
  (enemiesDestroyedRef r' + aliveCount (enemiesRef r') =
   enemiesDestroyedRef r + aliveCount (enemiesRef r))%Z /\
  enemiesSpawnedRef r' = enemiesSpawnedRef r.
Proof.
  intros Hall. cbv zeta. unfold detectMotionAndCollisions.
  destruct (mCanvas m); cbn [negb]; [| split; reflexivity].
  destruct (mCtx m); cbn [negb]; [| split; reflexivity].
  destruct (prevFrameDataRef r) as [prev |]; [| split; reflexivity].
  destruct (sameLength prev (imageData m)); cbn [negb]; [| split; reflexivity].
  unfold collisionDetection.
  cbn [enemiesRef set_cursorRef set_prevFrameDataRef].
  match goal with
  | |- context [forEachEnemy ?ap ?t ?r0 ?es] =>
      pose proof (forEachEnemy_accounts ap t es Hall r0) as Hacc;
      pose proof (forEachEnemy_frame ap t es r0) as Hframe;
      destruct (forEachEnemy ap t r0 es) as [[r1 es'] hs]
  end.
  cbn [fst snd] in Hacc, Hframe |- *.
  destruct Hframe as (_ & _ & _ & _ & _ & Hspawned).
  cbn [enemiesRef enemiesDestroyedRef enemiesSpawnedRef set_enemiesRef
       set_cursorRef set_prevFrameDataRef] in Hacc, Hspawned |- *.
  split; assumption.
Qed.

Lemma updateGameState_accounts (ts w h : Q) (d : SpawnDraws) (r : Refs) :
  accounted r -> accounted (fst (fst (updateGameState ts w h d r))).
Proof.
  unfold accounted. intros H. rewrite updateGameState_refs.
  cbn [enemiesRef enemiesDestroyedRef enemiesSpawnedRef set_enemiesRef].
  pose proof (aliveCount_sweep ts (enemiesRef (spawnStep ts w h d r))) as Hs.
  rewrite spawnStep_enemies, aliveCount_app in Hs.
  rewrite spawnStep_enemies.
  destruct (spawnStep_counters ts w h d r) as (_ & _ & _ & _ & ->).
  unfold spawnStep. destruct (spawnDue ts r); cbn [enemiesSpawnedRef].
  - change (aliveCount [spawnEnemy ts w h d]) with 1%Z in Hs. lia.
  - change (aliveCount []) with 0%Z in Hs. lia.
Qed.

Lemma gameLoop_accounts (t : Tick) (r : Refs) :
  accounted r -> accounted (fst (fst (gameLoop t r))).
Proof.
  intros H.
  assert (H0 : accounted (startClock t r)).
  { unfold accounted in *. rewrite startClock_destroyed.
    destruct (startClock_frame t r) as (-> & _).
    unfold startClock. destruct (Qeq_bool _ _); exact H. }
  unfold gameLoop.
  destruct (canvas t && videoReady t); [| exact H0].
  destruct (ctx t); [| exact H0].
  cbv zeta.
  set (w := inject_Z (canvasWidth t)). set (h := inject_Z (canvasHeight t)).
  pose proof (updateGameState_accounts (timestamp t) w h (draws t) _ H0) as H1.
  pose proof (updateGameState_refs (timestamp t) w h (draws t) (startClock t r)) as Hr.
  destruct (updateGameState (timestamp t) w h (draws t) (startClock t r))
    as [[r1 over] isRunning].
  cbn [fst] in H1, Hr.
  assert (Hall : Forall (fun e => alive e = true) (enemiesRef r1)).
  { rewrite Hr. cbn [enemiesRef set_enemiesRef]. apply sweep_alive. }
  pose proof (detect_accounts (motion t) w h (timestamp t) r1 Hall) as [Hacc Hsp].
  destruct (detectMotionAndCollisions (motion t) w h (timestamp t) r1) as [r2 pass].
  cbn [fst] in Hacc, Hsp |- *. unfold accounted in *. lia.
Qed.

Lemma run_accounted (ticks : list Tick) : accounted (refs (run ticks)).
Proof.
  unfold run. apply (fold_frame_inv (fun s => accounted (refs s))).
  - intros s t H. rewrite frame_refs. destruct (requested s); [| exact H].
    now apply gameLoop_accounts.
  - unfold accounted. cbn. lia.
Qed.

(** ** Every live target is a spawn followed through its frames *)

Lemma lifeState_snoc (e0 : Enemy.t) (frames : list FrameView) (f : FrameView) :
  lifeState e0 (frames ++ [f]) =
  match lifeState e0 frames with Some e => enemyFrame f e | None => None end.
Proof. unfold lifeState. now rewrite fold_left_app. Qed.

Lemma survivors_In (f : FrameView) (es : list Enemy.t) (e' : Enemy.t) :
  In e' (survivors f es) -> exists e, In e es /\ enemyFrame f e = Some e'.
Proof.
  unfold survivors. intros H. apply in_flat_map in H as (e & He & Hin).
  exists e. split; [exact He |].
  destruct (enemyFrame f e) as [e1 |]; [| contradiction].
  destruct Hin as [-> | []]. reflexivity.
Qed.

Lemma gameLoop_hasLife (t : Tick) (r : Refs) :
  Forall hasLife (enemiesRef r) ->
  Forall hasLife (enemiesRef (fst (fst (gameLoop t r)))).
Proof.
  intros H. rewrite gameLoop_enemies. destruct (ready t); [| exact H].
  cbv zeta. apply Forall_forall. intros e' He'.
  apply survivors_In in He' as (e & He & Hf).
  rewrite spawnStep_enemies in He.
  destruct (startClock_frame t r) as (Hes & _). rewrite Hes in He.
  apply in_app_or in He as [He | He].
  - rewrite Forall_forall in H. destruct (H e He) as (ts & w & h & d & frames & Hl).
    exists ts, w, h, d, (frames ++ [(timestamp t,
      activePixelsOf (motion t) (inject_Z (canvasWidth t)) r)]).
    now rewrite lifeState_snoc, Hl.
  - destruct (spawnDue _ _); [| contradiction]. destruct He as [<- | []].
    exists (timestamp t), (inject_Z (canvasWidth t)), (inject_Z (canvasHeight t)),
      (draws t), [(timestamp t, activePixelsOf (motion t) (inject_Z (canvasWidth t)) r)].
    exact Hf.
Qed.

(** In every state a session reaches, each element of the array is some
    spawned enemy taken through the frames it has seen, so what [follow]
    proves of one enemy holds of every live target. *)
Lemma run_hasLife (ticks : list Tick) :
  Forall hasLife (enemiesRef (refs (run ticks))).
Proof.
  unfold run.
  apply (fold_frame_inv (fun s => Forall hasLife (enemiesRef (refs s)))).
  - intros s t H. rewrite frame_refs. destruct (requested s); [| exact H].
    now apply gameLoop_hasLife.
  - constructor.
Qed.

(** * The parts of the loop *)

(** ** The pixel loop *)

Lemma list_ind4 {A : Type} (P : list A -> Prop) :
  P [] -> (forall a, P [a]) -> (forall a b, P [a; b]) ->
  (forall a b c, P [a; b; c]) ->
  (forall a b c d l, P l -> P (a :: b :: c :: d :: l)) ->
  forall l, P l.
Proof.
  intros H0 H1 H2 H3 H4.
  fix IH 1. intros [| a [| b [| c [| d l]]]];
    [exact H0 | apply H1 | apply H2 | apply H3 | apply H4; apply IH].
Qed.

Lemma comparePixels_cells (mw : Q) (data : list Z) :
  forall prevData idx,
    comparePixels mw idx data prevData =
    map (cellOf mw) (activeIndices idx data prevData).
Proof.
  induction data as [| a | a b | a b c | r g b a data IH] using list_ind4;
    intros prevData idx; try reflexivity.
  destruct prevData as [| r' [| g' [| b' [| a' prevData]]]]; try reflexivity.
  cbn [comparePixels activeIndices]. rewrite IH.
  destruct (_ >? _)%Z; reflexivity.
Qed.

Lemma activeIndices_quiet (data : list Z) :
  forall prevData idx,
    bytesWithin MOTION_THRESHOLD data prevData ->
    activeIndices idx data prevData = [].
Proof.
  unfold bytesWithin, MOTION_THRESHOLD.
  induction data as [| a | a b | a b c | r g b a data IH] using list_ind4;
    intros prevData idx H; try reflexivity.
  destruct prevData as [| r' [| g' [| b' [| a' prevData]]]]; try reflexivity.
  inversion H as [| ? ? ? ? Hr H1]; subst.
  inversion H1 as [| ? ? ? ? Hg H2]; subst.
  inversion H2 as [| ? ? ? ? Hb H3]; subst.
  inversion H3 as [| ? ? ? ? _ H4]; subst.
  cbn [activeIndices]. rewrite (IH _ _ H4).
  assert (E : (Z.abs (r - r') + Z.abs (g - g') + Z.abs (b - b')
               >? MOTION_THRESHOLD * 3)%Z = false).
  { unfold MOTION_THRESHOLD. rewrite Z.gtb_ltb. apply Z.ltb_ge. lia. }
  now rewrite E.
Qed.

(** Two identical frames: nothing moves. *)
Lemma comparePixels_same :
  forall (mw : Q) (pixelIdx : Z) (data : list Z),
    comparePixels mw pixelIdx data data = [].
Proof.
  intros mw pixelIdx data. rewrite comparePixels_cells, activeIndices_quiet.
  - reflexivity.
  - unfold bytesWithin, MOTION_THRESHOLD. induction data as [| a data IH];
      constructor; [| exact IH].
    rewrite Z.sub_diag. cbn. lia.
Qed.

(** X1.  Two identical frames give no moving pixel, whatever the grid width
    and the frame: a still scene reports no motion. *)
Theorem still_scene_has_no_motion :
  forall (mw : Q) (pixelIdx : Z) (data : list Z),
    comparePixels mw pixelIdx data data = [].
Proof. exact comparePixels_same. Qed.

(** X2.  A frame each of whose bytes is within [MOTION_THRESHOLD] (40) of the
    previous frame's byte gives no moving pixel: the three channel
    differences then sum to at most 120, and the test is a strict [>]. *)
Theorem small_changes_are_not_motion :
  forall (mw : Q) (pixelIdx : Z) (data prevData : list Z),
    bytesWithin MOTION_THRESHOLD data prevData ->
    comparePixels mw pixelIdx data prevData = [].
Proof.
  intros mw pixelIdx data prevData H.
  now rewrite comparePixels_cells, activeIndices_quiet.
Qed.

Lemma small_changes_are_not_motion_witness :
  comparePixels 40 0 [100; 100; 100; 255; 7; 8; 9; 255]%Z
                     [140; 60; 140; 255; 7; 8; 9; 255]%Z = [] /\
  comparePixels 40 0 [100; 100; 100; 255]%Z [141; 60; 140; 255]%Z
  = [cellOf 40 0].
Proof.
  split.
  - apply small_changes_are_not_motion.
    unfold bytesWithin, MOTION_THRESHOLD.
    repeat (constructor; [vm_compute; discriminate |]). constructor.
  - reflexivity.
Defined.

Lemma activeIndices_range (data : list Z) :
  forall prevData idx,
    Forall (fun i => (idx <= i < idx + Z.of_nat (List.length data) / 4)%Z)
           (activeIndices idx data prevData) /\
    ForallOrdPairs Z.lt (activeIndices idx data prevData).
Proof.
  induction data as [| a | a b | a b c | r g b a data IH] using list_ind4;
    intros prevData idx; try (split; constructor).
  destruct prevData as [| r' [| g' [| b' [| a' prevData]]]];
    try (split; constructor).
  cbn [activeIndices].
  destruct (IH prevData (idx + 1)%Z) as [Hrange Hord].
  assert (Hlen : (Z.of_nat (List.length (r :: g :: b :: a :: data)) / 4
                  = Z.of_nat (List.length data) / 4 + 1)%Z).
  { cbn [List.length]. rewrite !Nat2Z.inj_succ. unfold Z.succ.
    replace (Z.of_nat (List.length data) + 1 + 1 + 1 + 1)%Z
      with (Z.of_nat (List.length data) + 1 * 4)%Z by lia.
    apply Z.div_add. lia. }
  rewrite Hlen.
  assert (Hnn : (0 <= Z.of_nat (List.length data) / 4)%Z).
  { apply Z.div_pos; lia. }
  assert (Hrange' : Forall (fun i => (idx <= i < idx + (Z.of_nat (List.length data) / 4 + 1))%Z)
                           (activeIndices (idx + 1) data prevData)).
  { eapply Forall_impl; [| exact Hrange]. cbn. intros i Hi. lia. }
  destruct (_ >? _)%Z.
  - split.
    + constructor; [lia | exact Hrange'].
    + constructor; [| exact Hord].
      eapply Forall_impl; [| exact Hrange]. cbn. intros i Hi. lia.
  - split; assumption.
Qed.

Lemma cellOf_grid (n : Z) (mw : Q) (i : Z) :
  (0 < n)%Z -> mw == inject_Z n ->
  Point.x (cellOf mw i) == inject_Z (8 * (i mod n)) /\
  Point.y (cellOf mw i) == inject_Z (8 * (i / n)).
Proof.
  intros Hn Hmw.
  assert (Hfloor : Qfloor (inject_Z i / mw) = (i / n)%Z).
  { rewrite Zdiv_Qdiv. apply Qfloor_comp. now rewrite Hmw. }
  unfold cellOf, jsRem, GRID_SCALE. cbn [Point.x Point.y].
  rewrite Hfloor, Hmw. split.
  - rewrite Z.mod_eq by lia.
    rewrite inject_Z_mult. unfold Z.sub.
    rewrite inject_Z_plus, inject_Z_opp, inject_Z_mult.
    change (inject_Z 8) with 8. ring.
  - rewrite inject_Z_mult. change (inject_Z 8) with 8. ring.
Qed.

Lemma cellOf_distinct (n : Z) (mw : Q) (i j : Z) :
  (0 < n)%Z -> mw == inject_Z n -> i <> j ->
  ~ samePoint (cellOf mw i) (cellOf mw j).
Proof.
  intros Hn Hmw Hij [Hx Hy].
  destruct (cellOf_grid n mw i Hn Hmw) as [Exi Eyi].
  destruct (cellOf_grid n mw j Hn Hmw) as [Exj Eyj].
  rewrite Exi, Exj in Hx. rewrite Eyi, Eyj in Hy.
  apply (proj1 (inject_Z_injective _ _)) in Hx.
  apply (proj1 (inject_Z_injective _ _)) in Hy.
  apply Hij.
  assert (Hm : (i mod n = j mod n)%Z) by lia.
  assert (Hd : (i / n = j / n)%Z) by lia.
  pose proof (Z.div_mod i n) as Ei. pose proof (Z.div_mod j n) as Ej.
  rewrite Ei, Ej by lia. now rewrite Hm, Hd.
Qed.

(** X3.  On a canvas whose width is a multiple of 8, every moving pixel the
    loop reports is the cell of a pixel index [i] of the frame, at
    [x = 8 * (i mod n)] and [y = 8 * (i / n)] for the grid width [n]: its
    coordinates are multiples of 8, [x] lies inside the canvas, and no cell is
    reported twice. *)
Theorem moving_pixels_are_distinct_grid_cells :
  forall (n : Z) (data prevData : list Z),
    (0 < n)%Z ->
    let activePixels :=
      comparePixels (inject_Z (8 * n) / GRID_SCALE) 0 data prevData in
    Forall (fun p =>
              exists i,
                (0 <= i < Z.of_nat (List.length data) / 4)%Z /\
                Point.x p == inject_Z (8 * (i mod n)) /\
                Point.y p == inject_Z (8 * (i / n)) /\
                0 <= Point.x p /\ Point.x p < inject_Z (8 * n) /\ 0 <= Point.y p)
           activePixels /\
    ForallOrdPairs (fun p q => ~ samePoint p q) activePixels.
Proof.
  intros n data prevData Hn activePixels.
  assert (Hmw : inject_Z (8 * n) / GRID_SCALE == inject_Z n).
  { unfold GRID_SCALE. rewrite inject_Z_mult. change (inject_Z 8) with 8. field. }
  subst activePixels. rewrite comparePixels_cells.
  destruct (activeIndices_range data prevData 0) as [Hrange Hord].
  set (idxs := activeIndices 0 data prevData) in *. clearbody idxs.
  split.
  - apply Forall_map. eapply Forall_impl; [| exact Hrange].
    cbn beta. intros i Hi. exists i.
    destruct (cellOf_grid n _ i Hn Hmw) as [Ex Ey].
    split; [lia |]. split; [exact Ex |]. split; [exact Ey |].
    pose proof (Z.mod_pos_bound i n Hn) as Hmod.
    assert (Hdiv : (0 <= i / n)%Z) by (apply Z.div_pos; lia).
    rewrite Ex, Ey. repeat split.
    + rewrite <- (Zle_Qle 0). lia.
    + rewrite <- Zlt_Qlt. lia.
    + rewrite <- (Zle_Qle 0). lia.
  - induction Hord as [| i idxs Hi _ IH]; [constructor |].
    inversion Hrange as [| ? ? _ Hrest]; subst.
    cbn [map]. constructor; [| exact (IH Hrest)].
    apply Forall_map. eapply Forall_impl; [| exact Hi].
    cbn beta. intros j Hj. apply (cellOf_distinct n); [exact Hn | exact Hmw | lia].
Qed.

Lemma moving_pixels_are_distinct_grid_cells_witness :
  List.length (comparePixels (inject_Z (8 * 40) / GRID_SCALE) 0
                             brightImage stillImage) = 1200%nat /\
  ForallOrdPairs (fun p q => ~ samePoint p q)
    (comparePixels (inject_Z (8 * 40) / GRID_SCALE) 0 brightImage stillImage).
Proof.
  split; [vm_compute; reflexivity |].
  apply (moving_pixels_are_distinct_grid_cells 40 brightImage stillImage).
  reflexivity.
Defined.


(** ** The collision pass *)

Lemma tally_bounds (e : Enemy.t) (ap : list Point.t) :
  forall acc,
    (fst acc <= fst (fold_left (tally e) ap acc)
     <= fst acc + Z.of_nat (List.length ap))%Z.
Proof.
  induction ap as [| p rest IH]; intros acc; cbn [fold_left List.length].
  - lia.
  - specialize (IH (tally e acc p)).
    assert (Hstep : (fst acc <= fst (tally e acc p) <= fst acc + 1)%Z).
    { unfold tally. destruct (inRect e p); cbn [fst]; lia. }
    rewrite Nat2Z.inj_succ. lia.
Qed.

Lemma hitsInRect_le_length (e : Enemy.t) (ap : list Point.t) :
  (0 <= hitsInRect e ap <= Z.of_nat (List.length ap))%Z.
Proof. unfold hitsInRect. pose proof (tally_bounds e ap (0%Z, 0)). cbn in *. lia. Qed.

Lemma tally_filter (e : Enemy.t) (ap : list Point.t) :
  forall acc,
    fold_left (tally e) (filter (inRect e) ap) acc = fold_left (tally e) ap acc.
Proof.
  induction ap as [| p rest IH]; intros acc; [reflexivity |].
  cbn [filter fold_left]. unfold tally at 3.
  destruct (inRect e p) eqn:Hin; [| apply IH].
  cbn [fold_left]. unfold tally at 2. rewrite Hin. apply IH.
Qed.

Lemma set_enemiesRef_same (r : Refs) : set_enemiesRef (enemiesRef r) r = r.
Proof. destruct r; reflexivity. Qed.

Lemma forEachEnemy_quiet (ap : list Point.t) (ts : Q) (es : list Enemy.t) :
  (forall r e, In e es -> resolveEnemy ap ts r e = (r, e, None)) ->
  forall r, forEachEnemy ap ts r es = (r, es, []).
Proof.
  induction es as [| e rest IH]; intros Hq r; [reflexivity |].
  cbn [forEachEnemy]. rewrite (Hq r e) by now left.
  rewrite IH; [reflexivity |]. intros r' e' He'. apply Hq. now right.
Qed.

(** A pass on at most 25 moving pixels. *)
Lemma collisionDetection_few :
  forall (activePixels : list Point.t) (ts : Q) (r : Refs),
    (List.length activePixels <= 25)%nat ->
    collisionDetection activePixels ts r = (r, []).
Proof.
  intros ap ts r Hlen. unfold collisionDetection.
  rewrite forEachEnemy_quiet.
  - now rewrite set_enemiesRef_same.
  - intros r' e _. unfold resolveEnemy.
    destruct (coolingDown ts e); [reflexivity |].
    pose proof (hitsInRect_le_length e ap) as Hle.
    assert (E : (hitsInRect e ap >? HIT_PIXEL_COUNT_THRESHOLD)%Z = false).
    { unfold HIT_PIXEL_COUNT_THRESHOLD. rewrite Z.gtb_ltb. apply Z.ltb_ge. lia. }
    now rewrite E.
Qed.

(** X4.  A pass given at most 25 moving pixels changes nothing: it resolves
    no hit, and the counters and every target are as before, wherever the
    pixels lie. *)
Theorem few_moving_pixels_never_hit :
  forall (activePixels : list Point.t) (ts : Q) (r : Refs),
    (List.length activePixels <= 25)%nat ->
    collisionDetection activePixels ts r = (r, []).
Proof. exact collisionDetection_few. Qed.

Lemma few_moving_pixels_never_hit_witness :
  collisionDetection (sameCell 25) 1000
    (set_enemiesRef [scenarioTarget "t" 900] initialRefs)
  = (set_enemiesRef [scenarioTarget "t" 900] initialRefs, []).
Proof.
  apply few_moving_pixels_never_hit. unfold sameCell. rewrite repeat_length.
  apply le_n.
Defined.

(** X5.  Only the moving pixels inside a target's rectangle decide what the
    pass does to it: dropping every pixel outside the rectangle from the list
    changes nothing; and with no pixel inside, the target is left alone. *)
Theorem only_pixels_inside_matter :
  forall (activePixels : list Point.t) (ts : Q) (r : Refs) (e : Enemy.t),
    resolveEnemy (filter (inRect e) activePixels) ts r e
    = resolveEnemy activePixels ts r e /\
    (filter (inRect e) activePixels = [] ->
     resolveEnemy activePixels ts r e = (r, e, None)).
Proof.
  intros ap ts r e.
  assert (E : resolveEnemy (filter (inRect e) ap) ts r e = resolveEnemy ap ts r e).
  { unfold resolveEnemy, hitsInRect, hitYSum. now rewrite tally_filter. }
  split; [exact E |].
  intros Hnone. rewrite <- E, Hnone. unfold resolveEnemy.
  destruct (coolingDown ts e); reflexivity.
Qed.

Lemma only_pixels_inside_matter_witness :
  resolveEnemy [Point.mk 200 8; Point.mk 8 400] 1000 initialRefs
               (scenarioTarget "t" 900)
  = (initialRefs, scenarioTarget "t" 900, None).
Proof.
  apply (only_pixels_inside_matter
           [Point.mk 200 8; Point.mk 8 400] 1000 initialRefs
           (scenarioTarget "t" 900)).
  reflexivity.
Defined.

Lemma countHits_cons (k h : Hit) (hits : list Hit) :
  countHits k (h :: hits) =
  ((match h, k with
    | Critical, Critical | Body, Body => 1
    | _, _ => 0
    end) + countHits k hits)%Z.
Proof.
  unfold countHits. cbn [filter].
  destruct h, k; cbn [List.length]; lia.
Qed.

Lemma forEachEnemy_points (ap : list Point.t) (ts : Q) (es : list Enemy.t) :
  forall r,
    let '(r', es', hits) := forEachEnemy ap ts r es in
    scoreRef r' = (scoreRef r + totalPoints hits)%Z /\
    headshotsRef r' = (headshotsRef r + countHits Critical hits)%Z /\
    bodyshotsRef r' = (bodyshotsRef r + countHits Body hits)%Z /\
    List.length es' = List.length es /\
    (List.length hits <= List.length es)%nat.
Proof.
  induction es as [| e rest IH]; intros r.
  - cbn. repeat split; lia.
  - cbn [forEachEnemy].
    pose proof (resolveEnemy_outcome ap ts r e) as Ho.
    destruct (resolveEnemy ap ts r e) as [[r1 e1] h].
    specialize (IH r1).
    destruct (forEachEnemy ap ts r1 rest) as [[r2 rest'] hs].
    destruct IH as (Es & Eh & Eb & El & Hl).
    rewrite Es, Eh, Eb. cbn [List.length]. rewrite El.
    inversion Ho as [Hno | Hconf Hy | Hconf Hy]; subst r1 e1 h; clear Ho;
      cbn [hitList app totalPoints fold_right pointsOf List.length];
      rewrite ?countHits_cons;
      try (destruct (Enemy.hp e - 1 <=? 0)%Z);
      cbn [scoreRef headshotsRef bodyshotsRef addHeadshot addBodyshot addDestroyed];
      fold (totalPoints hs); repeat split; lia.
Qed.

(** X6.  What a pass adds to the counters is what it announces: the score
    rises by 3 for every "CRITICAL +3" and by 1 for every "BODY +1", the
    headshot and bodyshot counters by the number of each; the pass resolves
    at most one hit per target and neither adds nor removes a target. *)
Theorem pass_scores_what_it_announces :
  forall (activePixels : list Point.t) (ts : Q) (r : Refs),
    let r' := fst (collisionDetection activePixels ts r) in
    let hits := snd (collisionDetection activePixels ts r) in
    scoreRef r' = (scoreRef r + totalPoints hits)%Z /\
    totalPoints hits = (3 * countHits Critical hits + countHits Body hits)%Z /\
    headshotsRef r' = (headshotsRef r + countHits Critical hits)%Z /\
    bodyshotsRef r' = (bodyshotsRef r + countHits Body hits)%Z /\
    List.length (enemiesRef r') = List.length (enemiesRef r) /\
    (List.length hits <= List.length (enemiesRef r))%nat.
Proof.
  intros ap ts r. cbv zeta. unfold collisionDetection.
  pose proof (forEachEnemy_points ap ts (enemiesRef r) r) as H.
  destruct (forEachEnemy ap ts r (enemiesRef r)) as [[r1 es] hs].
  destruct H as (Es & Eh & Eb & El & Hl).
  cbn [fst snd scoreRef headshotsRef bodyshotsRef enemiesRef set_enemiesRef].
  repeat split; try assumption.
  clear. induction hs as [| h hs IH]; [reflexivity |].
  cbn [totalPoints fold_right]. fold (totalPoints hs).
  rewrite !countHits_cons, IH. destruct h; cbn [pointsOf]; lia.
Qed.

(** ** Motion detection as a whole *)

Lemma sameLength_refl (l : list Z) : sameLength l l = true.
Proof. unfold sameLength. apply Nat.eqb_refl. Qed.

(** The call on the image already stored. *)
Lemma detect_unchanged :
  forall (m : MotionInput) (width height ts : Q) (r : Refs),
    mCanvas m = true -> mCtx m = true ->
    prevFrameDataRef r = Some (imageData m) ->
    detectMotionAndCollisions m width height ts r
    = (set_cursorRef None r, Some []).
Proof.
  intros m w h ts r Hc Hx Hprev. unfold detectMotionAndCollisions.
  rewrite Hc, Hx, Hprev. cbn [negb].
  rewrite sameLength_refl. cbn [negb].
  rewrite comparePixels_same. cbn [updateCursor].
  rewrite collisionDetection_few by (cbn; apply Nat.le_0_l).
  destruct r; cbn in Hprev |- *. now rewrite Hprev.
Qed.

(** X7.  When the image is the one stored from the previous call, the call
    reaches the collision pass with no moving pixel: it resolves no hit,
    clears the cursor, and leaves every target and counter as it was. *)
Theorem unchanged_image_only_clears_cursor :
  forall (m : MotionInput) (width height ts : Q) (r : Refs),
    mCanvas m = true -> mCtx m = true ->
    prevFrameDataRef r = Some (imageData m) ->
    detectMotionAndCollisions m width height ts r
    = (set_cursorRef None r, Some []).
Proof. exact detect_unchanged. Qed.

Lemma unchanged_image_only_clears_cursor_witness :
  let r := refs (run [camera 1000 cornerDraws stillImage;
                      camera 2000 cornerDraws topRowsImage]) in
  cursorRef r <> None /\
  detectMotionAndCollisions (mkMotion true true topRowsImage) 320 240 2016 r
  = (set_cursorRef None r, Some []).
Proof.
  cbv zeta. split.
  - vm_compute. discriminate.
  - apply unchanged_image_only_clears_cursor.
    + reflexivity.
    + reflexivity.
    + vm_compute. reflexivity.
Defined.

(** What the call stores, and when storing is all it does. *)
Lemma detect_stores :
  forall (m : MotionInput) (width height ts : Q) (r : Refs),
    (mCanvas m && mCtx m = false ->
     detectMotionAndCollisions m width height ts r = (r, None)) /\
    (mCanvas m && mCtx m = true ->
     prevFrameDataRef (fst (detectMotionAndCollisions m width height ts r))
     = Some (imageData m) /\
     (activePixelsOf m width r = None ->
      detectMotionAndCollisions m width height ts r
      = (set_prevFrameDataRef (Some (imageData m)) r, None))).
Proof.
  intros m w h ts r. unfold detectMotionAndCollisions, activePixelsOf.
  destruct (mCanvas m), (mCtx m); cbn [andb negb]; split;
    try discriminate; try reflexivity; intros _.
  destruct (prevFrameDataRef r) as [prev |]; [| split; reflexivity].
  destruct (sameLength prev (imageData m)); cbn [negb]; [| split; reflexivity].
  split; [| discriminate].
  unfold collisionDetection.
  match goal with
  | |- context [forEachEnemy ?ap ?t ?r0 ?es] =>
      pose proof (forEachEnemy_frame ap t es r0) as Hframe;
      destruct (forEachEnemy ap t r0 es) as [[r1 es'] hs]
  end.
  cbn [fst] in Hframe |- *. destruct Hframe as (_ & _ & _ & Hprev & _).
  cbn [prevFrameDataRef set_enemiesRef]. rewrite Hprev. reflexivity.
Qed.

(** X8.  Without the motion canvas or its context the call does nothing.
    With both, the image it was given is the stored image afterwards,
    whether or not anything moved; and on the first call, or when the stored
    image has another size, storing it is all the call does: no pass runs and
    the cursor, the targets and the counters stay as they were. *)
Theorem detection_keeps_the_latest_image :
  forall (m : MotionInput) (width height ts : Q) (r : Refs),
    (mCanvas m && mCtx m = false ->
     detectMotionAndCollisions m width height ts r = (r, None)) /\
    (mCanvas m && mCtx m = true ->
     prevFrameDataRef (fst (detectMotionAndCollisions m width height ts r))
     = Some (imageData m) /\
     (activePixelsOf m width r = None ->
      detectMotionAndCollisions m width height ts r
      = (set_prevFrameDataRef (Some (imageData m)) r, None))).
Proof. exact detect_stores. Qed.

Lemma detection_keeps_the_latest_image_witness :
  detectMotionAndCollisions (mkMotion true false stillImage) 320 240 1000
                            initialRefs = (initialRefs, None) /\
  detectMotionAndCollisions (mkMotion true true stillImage) 320 240 1000
                            initialRefs
  = (set_prevFrameDataRef (Some stillImage) initialRefs, None).
Proof.
  split.
  - apply (detection_keeps_the_latest_image
             (mkMotion true false stillImage) 320 240 1000 initialRefs).
    reflexivity.
  - apply (detection_keeps_the_latest_image
             (mkMotion true true stillImage) 320 240 1000 initialRefs).
    + reflexivity.
    + reflexivity.
Defined.

(** ** The cursor *)

Lemma sum_bounds (f : Point.t -> Q) (lo hi : Q) (l : list Point.t) :
  Forall (fun p => lo <= f p /\ f p <= hi) l ->
  forall acc,
    acc + lo * inject_Z (Z.of_nat (List.length l))
      <= fold_left (fun a p => a + f p) l acc /\
    fold_left (fun a p => a + f p) l acc
      <= acc + hi * inject_Z (Z.of_nat (List.length l)).
Proof.
  intros H. induction H as [| p rest [Hlo Hhi] _ IH]; intros acc.
  - cbn. change (inject_Z 0) with 0. lra.
  - cbn [fold_left List.length]. destruct (IH (acc + f p)) as [IH1 IH2].
    rewrite Nat2Z.inj_succ. unfold Z.succ. rewrite inject_Z_plus.
    change (inject_Z 1) with 1. split; lra.
Qed.

Lemma mean_bounds (f : Point.t -> Q) (lo hi : Q) (l : list Point.t) :
  l <> [] ->
  Forall (fun p => lo <= f p /\ f p <= hi) l ->
  lo <= fold_left (fun a p => a + f p) l 0 / count l /\
  fold_left (fun a p => a + f p) l 0 / count l <= hi.
Proof.
  intros Hne H. destruct (sum_bounds f lo hi l H 0) as [H1 H2].
  assert (Hpos : 0 < count l).
  { unfold count. rewrite <- (Zlt_Qlt 0). destruct l; [contradiction | cbn; lia]. }
  fold (count l) in H1, H2. split.
  - apply Qle_shift_div_l; [exact Hpos | lra].
  - apply Qle_shift_div_r; [exact Hpos | lra].
Qed.

(** X9.  The cursor never leaves the box of what moved: when every moving
    pixel lies in a box, and so does the cursor if there is one, the updated
    cursor exists and lies in the box; with no moving pixel the cursor is
    gone, whatever it was. *)
Theorem cursor_stays_in_the_box :
  forall (lo hi : Point.t) (cursor : option Point.t) (activePixels : list Point.t),
    match cursor with Some c => inBox lo hi c | None => True end ->
    Forall (inBox lo hi) activePixels ->
    match activePixels with
    | [] => updateCursor cursor activePixels = None
    | _ :: _ => exists c, updateCursor cursor activePixels = Some c /\ inBox lo hi c
    end.
Proof.
  intros lo hi cursor ap Hc Hap.
  destruct ap as [| p rest]; [reflexivity |].
  set (l := p :: rest) in *.
  exists (smooth cursor (centroid l)). split; [reflexivity |].
  assert (Hne : l <> []) by discriminate.
  destruct (mean_bounds Point.x (Point.x lo) (Point.x hi) l Hne) as [Hx1 Hx2].
  { eapply Forall_impl; [| exact Hap]. unfold inBox. intros q Hq. tauto. }
  destruct (mean_bounds Point.y (Point.y lo) (Point.y hi) l Hne) as [Hy1 Hy2].
  { eapply Forall_impl; [| exact Hap]. unfold inBox. intros q Hq. tauto. }
  fold (totalX l) in Hx1, Hx2. fold (totalY l) in Hy1, Hy2.
  unfold inBox, smooth, centroid, smoothFactor.
  destruct cursor as [c |]; cbn [Point.x Point.y].
  - destruct Hc as (C1 & C2 & C3 & C4). repeat split; lra.
  - repeat split; assumption.
Qed.

Lemma cursor_stays_in_the_box_witness :
  exists c,
    updateCursor (Some (Point.mk 0 232)) [Point.mk 8 16; Point.mk 312 32] = Some c /\
    inBox (Point.mk 0 0) (Point.mk 312 232) c.
Proof.
  apply (cursor_stays_in_the_box
           (Point.mk 0 0) (Point.mk 312 232) (Some (Point.mk 0 232))
           [Point.mk 8 16; Point.mk 312 32]).
  - unfold inBox. cbn. repeat split; discriminate.
  - repeat constructor; cbn; discriminate.
Defined.

(** ** The update of the targets *)

Lemma Qgtb_false (a b : Q) : Qgtb a b = false <-> a <= b.
Proof. unfold Qgtb. apply Qltb_false. Qed.

Lemma Qgtb_true (a b : Q) : Qgtb a b = true <-> b < a.
Proof. unfold Qgtb. apply Qltb_true. Qed.

Lemma clearFlash_same (ts : Q) (e : Enemy.t) :
  sameTarget e (clearFlash ts e) /\
  Enemy.hp (clearFlash ts e) = Enemy.hp e /\
  Enemy.lastHitTime (clearFlash ts e) = Enemy.lastHitTime e.
Proof.
  unfold clearFlash, sameTarget. destruct (_ && _); cbn; repeat split.
Qed.



Lemma keepEnemy_true (ts : Q) (e : Enemy.t) :
  keepEnemy ts e = true <->
  (0 < Enemy.hp e)%Z /\ ts - Enemy.spawnTime e <= ENEMY_LIFESPAN_MS.
Proof.
  unfold keepEnemy, isDead, isExpired.
  rewrite andb_true_iff, !negb_true_iff, Z.leb_gt, Qgtb_false. reflexivity.
Qed.

Lemma subseq_filter {A : Type} (f : A -> bool) (l : list A) :
  subseq (filter f l) l.
Proof.
  induction l as [| a l IH]; [constructor |].
  cbn [filter]. destruct (f a); [now apply subseq_take | now apply subseq_skip].
Qed.

Lemma clearFlash_spawn (ts w h : Q) (d : SpawnDraws) :
  clearFlash ts (spawnEnemy ts w h d) = spawnEnemy ts w h d.
Proof. reflexivity. Qed.

(** X10.  After [updateGameState] every target left has hp above 0.  The
    targets left are targets of the array as the spawn step left it, in
    their order, the sweep having written nothing but their hit flash, which
    it can only clear.  A target with hp above 0 that is no more than
    [ENEMY_LIFESPAN_MS] (5000 ms) old stays, and so does the target this
    very call spawned. *)
Theorem sweep_keeps_every_standing_target :
  forall (ts w h : Q) (d : SpawnDraws) (r : Refs),
    let pushed := enemiesRef (spawnStep ts w h d r) in
    let es' := enemiesRef (fst (fst (updateGameState ts w h d r))) in
    Forall (fun e => (0 < Enemy.hp e)%Z) es' /\
    subseq es' (map (clearFlash ts) pushed) /\
    (forall e,
        sameTarget e (clearFlash ts e) /\
        Enemy.hp (clearFlash ts e) = Enemy.hp e /\
        Enemy.lastHitTime (clearFlash ts e) = Enemy.lastHitTime e /\
        (Enemy.isHit (clearFlash ts e) = true -> Enemy.isHit e = true)) /\
    (forall e,
        In e pushed -> (0 < Enemy.hp e)%Z ->
        ts - Enemy.spawnTime e <= ENEMY_LIFESPAN_MS ->
        In (clearFlash ts e) es') /\
    (spawnDue ts r = true -> In (spawnEnemy ts w h d) es').
Proof.
  intros ts w h d r. cbv zeta.
  rewrite updateGameState_refs. cbn [enemiesRef set_enemiesRef].
  unfold sweepEnemies.
  assert (Hkeep : forall e,
             In e (enemiesRef (spawnStep ts w h d r)) -> (0 < Enemy.hp e)%Z ->
             ts - Enemy.spawnTime e <= ENEMY_LIFESPAN_MS ->
             In (clearFlash ts e)
                (filter (keepEnemy ts)
                        (map (clearFlash ts) (enemiesRef (spawnStep ts w h d r))))).
  { intros e Hin Hhp Hage. apply filter_In. split.
    - now apply in_map.
    - apply keepEnemy_true.
      destruct (clearFlash_same ts e) as ((_ & _ & _ & _ & _ & _ & ->) & -> & _).
      split; assumption. }
  split; [| split; [| split; [| split]]].
  - apply Forall_forall. intros e He. apply filter_In in He as [_ He].
    now apply keepEnemy_alive in He.
  - apply subseq_filter.
  - intros e. destruct (clearFlash_same ts e) as (Hsame & Hhp & Hlast).
    split; [exact Hsame |]. split; [exact Hhp |]. split; [exact Hlast |].
    destruct (Enemy.isHit e) eqn:Hh; [reflexivity |].
    unfold clearFlash. rewrite Hh. cbn [andb]. congruence.
  - exact Hkeep.
  - intros Hdue. rewrite <- (clearFlash_spawn ts w h d). apply Hkeep.
    + rewrite spawnStep_enemies, Hdue. apply in_or_app. right. now left.
    + reflexivity.
    + cbn [spawnEnemy Enemy.spawnTime]. unfold ENEMY_LIFESPAN_MS. lra.
Qed.

Lemma sweep_keeps_every_standing_target_witness :
  let old := Enemy.mk "a" 0 0 80 128 1 3 1000 5950 true in
  let dead := Enemy.mk "b" 0 0 80 128 0 3 5000 5950 true in
  let late := Enemy.mk "c" 0 0 80 128 3 3 999 0 false in
  map Enemy.id
      (enemiesRef (fst (fst (updateGameState 6000 320 240 cornerDraws
                               (set_enemiesRef [old; dead; late] initialRefs)))))
  = ["a"; "i"]%string /\
  In (clearFlash 6000 old)
     (enemiesRef (fst (fst (updateGameState 6000 320 240 cornerDraws
                              (set_enemiesRef [old; dead; late] initialRefs))))).
Proof.
  cbv zeta. split; [vm_compute; reflexivity |].
  pose proof (sweep_keeps_every_standing_target
                6000 320 240 cornerDraws
                (set_enemiesRef [Enemy.mk "a" 0 0 80 128 1 3 1000 5950 true;
                                 Enemy.mk "b" 0 0 80 128 0 3 5000 5950 true;
                                 Enemy.mk "c" 0 0 80 128 3 3 999 0 false]
                                initialRefs)) as H.
  cbv zeta in H. destruct H as (_ & _ & _ & Hkeep & _).
  apply Hkeep.
  - left. reflexivity.
  - reflexivity.
  - vm_compute. discriminate.
Defined.

Lemma enemyAfter_same (ap : list Point.t) (ts : Q) (e : Enemy.t) :
  sameTarget e (enemyAfter ap ts e) /\
  (Enemy.hp (enemyAfter ap ts e) = Enemy.hp e \/
   (0 <= Enemy.hp e - 1 -> Enemy.hp (enemyAfter ap ts e) < Enemy.hp e)%Z).
Proof.
  destruct (enemyAfter_outcome ap ts e) as [-> | [_ [-> | ->]]];
    unfold sameTarget; cbn; repeat split; auto; right; lia.
Qed.

Lemma enemyFrame_same (f : FrameView) (e e' : Enemy.t) :
  enemyFrame f e = Some e' ->
  sameTarget e e' /\ (0 < Enemy.hp e)%Z /\ (Enemy.hp e' <= Enemy.hp e)%Z.
Proof.
  unfold enemyFrame.
  destruct (clearFlash_same (fst f) e) as (Hs & Hhp & _).
  destruct (keepEnemy (fst f) (clearFlash (fst f) e)) eqn:Hkeep; [| discriminate].
  apply keepEnemy_alive in Hkeep. rewrite Hhp in Hkeep.
  assert (Htrans : forall e1, sameTarget (clearFlash (fst f) e) e1 -> sameTarget e e1).
  { unfold sameTarget in *. intros e1 H1.
    destruct Hs as (A1 & A2 & A3 & A4 & A5 & A6 & A7).
    destruct H1 as (B1 & B2 & B3 & B4 & B5 & B6 & B7).
    repeat split; congruence. }
  destruct (snd f) as [ap |]; intros [= <-].
  - destruct (enemyAfter_same ap (fst f) (clearFlash (fst f) e)) as [Hs' Hhp'].
    split; [now apply Htrans |]. split; [exact Hkeep |].
    rewrite Hhp in Hhp'. destruct Hhp' as [-> | Hlt]; lia.
  - split; [exact Hs |]. split; [exact Hkeep | lia].
Qed.

(** X11.  A frame never moves, resizes, renames or heals a target: every
    target in the array after a call of [gameLoop] is a target that was in
    the array before, or the one spawned by this call, with the same id,
    position, size, maxHp and spawn time, and with hp no higher. *)
Theorem targets_never_move_or_heal :
  forall (t : Tick) (r : Refs) (e' : Enemy.t),
    In e' (enemiesRef (fst (fst (gameLoop t r)))) ->
    exists e,
      (In e (enemiesRef r) \/
       e = spawnEnemy (timestamp t) (inject_Z (canvasWidth t))
                      (inject_Z (canvasHeight t)) (draws t)) /\
      sameTarget e e' /\ (Enemy.hp e' <= Enemy.hp e)%Z.
Proof.
  intros t r e'. rewrite gameLoop_enemies.
  destruct (ready t).
  - cbv zeta. intros He'. apply survivors_In in He' as (e & He & Hf).
    apply enemyFrame_same in Hf as (Hs & _ & Hhp).
    exists e. split; [| split; assumption].
    rewrite spawnStep_enemies in He.
    destruct (startClock_frame t r) as (Hes & _). rewrite Hes in He.
    apply in_app_or in He as [He | He]; [now left | right].
    destruct (spawnDue _ _); [| contradiction].
    destruct He as [<- | []]. reflexivity.
  - intros He'. exists e'. split; [now left |].
    split; [unfold sameTarget; repeat split | lia].
Qed.

Lemma targets_never_move_or_heal_witness :
  exists e,
    (In e (enemiesRef (refs (run [camera 1000 cornerDraws stillImage;
                                  camera 2000 cornerDraws stillImage]))) \/
     e = spawnEnemy 2016 320 240 cornerDraws) /\
    Enemy.hp e = 3%Z /\ Enemy.x e == 0 /\ Enemy.width e == 80.
Proof.
  pose (r := refs (run [camera 1000 cornerDraws stillImage;
                        camera 2000 cornerDraws stillImage])).
  pose (t := camera 2016 cornerDraws topRowsImage).
  destruct (enemiesRef (fst (fst (gameLoop t r)))) as [| e' rest] eqn:E.
  - vm_compute in E. discriminate E.
  - destruct (targets_never_move_or_heal t r e') as (e & Hfrom & Hs & Hhp).
    + rewrite E. now left.
    + exists e. split; [exact Hfrom |].
      destruct Hfrom as [Hin | ->]; [| repeat split; vm_compute; reflexivity].
      vm_compute in Hin. destruct Hin as [<- | []].
      repeat split; vm_compute; reflexivity.
Defined.

(** ** The cadence of the spawns *)

Lemma subseq_Forall {A : Type} (P : A -> Prop) (l m : list A) :
  subseq l m -> Forall P m -> Forall P l.
Proof.
  intros H Hm. apply Forall_forall. intros a Ha.
  rewrite Forall_forall in Hm. apply Hm. eapply subseq_In; eassumption.
Qed.

Lemma subseq_ForallOrdPairs {A : Type} (R : A -> A -> Prop) (l m : list A) :
  subseq l m -> ForallOrdPairs R m -> ForallOrdPairs R l.
Proof.
  intros H. induction H as [| b l m Hs IH | b l m Hs IH]; intros Hm.
  - exact Hm.
  - inversion Hm; subst. now apply IH.
  - inversion Hm as [| ? ? Hb Hrest]; subst. constructor.
    + eapply subseq_Forall; eassumption.
    + now apply IH.
Qed.

Lemma survivors_spawnTimes (f : FrameView) (es : list Enemy.t) :
  subseq (map Enemy.spawnTime (survivors f es)) (map Enemy.spawnTime es).
Proof.
  induction es as [| e rest IH]; [constructor |].
  rewrite survivors_cons.
  destruct (enemyFrame f e) as [e' |] eqn:Hf; cbn [app map].
  - apply enemyFrame_same in Hf as ((_ & _ & _ & _ & _ & _ & ->) & _).
    now apply subseq_take.
  - now apply subseq_skip.
Qed.

Lemma detect_frame (m : MotionInput) (w h ts : Q) (r : Refs) :
  let r' := fst (detectMotionAndCollisions m w h ts r) in
  lastSpawnTimeRef r' = lastSpawnTimeRef r /\
  gameStartTimeRef r' = gameStartTimeRef r /\
  enemiesSpawnedRef r' = enemiesSpawnedRef r.
Proof.
  cbv zeta. unfold detectMotionAndCollisions.
  destruct (mCanvas m); cbn [negb]; [| repeat split].
  destruct (mCtx m); cbn [negb]; [| repeat split].
  destruct (prevFrameDataRef r) as [prev |]; [| repeat split].
  destruct (sameLength prev (imageData m)); cbn [negb]; [| repeat split].
  unfold collisionDetection.
  match goal with
  | |- context [forEachEnemy ?ap ?t ?r0 ?es] =>
      pose proof (forEachEnemy_frame ap t es r0) as Hframe;
      destruct (forEachEnemy ap t r0 es) as [[r1 es'] hs]
  end.
  cbn [fst] in Hframe |- *. destruct Hframe as (_ & E1 & E2 & _ & _ & E3).
  cbn [lastSpawnTimeRef gameStartTimeRef enemiesSpawnedRef set_enemiesRef].
  rewrite E1, E2, E3. repeat split.
Qed.

(** The cells of [gameLoop]'s result that the collision pass does not touch. *)
Lemma gameLoop_frame (t : Tick) (r : Refs) :
  let r' := fst (fst (gameLoop t r)) in
  let rs := spawnStep (timestamp t) (inject_Z (canvasWidth t))
                      (inject_Z (canvasHeight t)) (draws t) (startClock t r) in
  gameStartTimeRef r' = gameStartTimeRef (startClock t r) /\
  lastSpawnTimeRef r' = (if ready t then lastSpawnTimeRef rs else lastSpawnTimeRef r) /\
  enemiesSpawnedRef r' =
    (if ready t then enemiesSpawnedRef rs else enemiesSpawnedRef r).
Proof.
  cbv zeta.
  assert (H0 : lastSpawnTimeRef (startClock t r) = lastSpawnTimeRef r /\
               enemiesSpawnedRef (startClock t r) = enemiesSpawnedRef r).
  { unfold startClock. destruct (Qeq_bool _ _); split; reflexivity. }
  destruct H0 as [HL HS].
  unfold gameLoop, ready.
  destruct (canvas t && videoReady t); cbn [andb fst];
    [| repeat split; assumption].
  destruct (ctx t); cbn [fst]; [| repeat split; assumption].
  set (w := inject_Z (canvasWidth t)). set (h := inject_Z (canvasHeight t)).
  pose proof (updateGameState_refs (timestamp t) w h (draws t) (startClock t r)) as Hu.
  destruct (updateGameState (timestamp t) w h (draws t) (startClock t r))
    as [[r1 over] isRunning].
  cbn [fst] in Hu.
  pose proof (detect_frame (motion t) w h (timestamp t) r1) as Hd.
  destruct (detectMotionAndCollisions (motion t) w h (timestamp t) r1) as [r2 pass].
  cbn [fst] in Hd |- *. destruct Hd as (-> & -> & ->). subst r1.
  cbn [lastSpawnTimeRef gameStartTimeRef enemiesSpawnedRef set_enemiesRef].
  repeat split.
  now destruct (spawnStep_counters (timestamp t) w h (draws t) (startClock t r))
    as (-> & _).
Qed.

Lemma gameLoop_cadenced (t : Tick) (r : Refs) :
  cadenced r -> cadenced (fst (fst (gameLoop t r))).
Proof.
  unfold cadenced. intros [Hgap Hwin].
  destruct (gameLoop_frame t r) as (_ & HL & _). cbv zeta in HL.
  rewrite HL, gameLoop_enemies.
  destruct (ready t); [| split; assumption].
  cbv zeta.
  set (ts := timestamp t).
  set (w := inject_Z (canvasWidth t)). set (h := inject_Z (canvasHeight t)).
  set (f := (ts, activePixelsOf (motion t) w r)).
  destruct (startClock_frame t r) as (Hes & Hlast & _).
  rewrite spawnStep_enemies, Hes.
  assert (HL' : lastSpawnTimeRef (spawnStep ts w h (draws t) (startClock t r))
                = if spawnDue ts (startClock t r) then ts else lastSpawnTimeRef r).
  { unfold spawnStep. destruct (spawnDue ts (startClock t r)); [reflexivity |].
    exact Hlast. }
  rewrite HL'.
  assert (Hdue : spawnDue ts (startClock t r) = true ->
                 lastSpawnTimeRef r + ENEMY_SPAWN_RATE_MS < ts).
  { unfold spawnDue. rewrite Hlast, Qgtb_true. intros H. lra. }
  split.
  - eapply subseq_ForallOrdPairs; [apply survivors_spawnTimes |].
    rewrite map_app.
    destruct (spawnDue ts (startClock t r)); [| now rewrite app_nil_r].
    specialize (Hdue eq_refl). cbn [map spawnEnemy Enemy.spawnTime].
    clear - Hgap Hwin Hdue.
    induction (enemiesRef r) as [| e rest IH]; cbn [map app].
    + constructor; constructor.
    + inversion Hgap as [| ? ? Hhd Htl]; subst.
      inversion Hwin as [| ? ? [_ He] Hrest]; subst.
      constructor; [| now apply IH].
      apply Forall_app. split; [exact Hhd |].
      constructor; [| constructor]. unfold spawnGap. lra.
  - unfold ENEMY_SPAWN_RATE_MS in *.
    apply Forall_forall. intros e' He'.
    apply survivors_In in He' as (e & He & Hf).
    assert (Hkeep : ts - Enemy.spawnTime e <= 5000).
    { unfold enemyFrame, f in Hf. cbn [fst] in Hf.
      destruct (keepEnemy ts (clearFlash ts e)) eqn:Hk; [| discriminate].
      apply keepEnemy_true in Hk as [_ Hk].
      now destruct (clearFlash_same ts e) as ((_ & _ & _ & _ & _ & _ & <-) & _). }
    apply enemyFrame_same in Hf as ((_ & _ & _ & _ & _ & _ & ->) & _).
    apply in_app_or in He as [He | He].
    + rewrite Forall_forall in Hwin. destruct (Hwin e He) as [H1 H2].
      destruct (spawnDue ts (startClock t r)).
      * specialize (Hdue eq_refl). split; lra.
      * split; assumption.
    + destruct (spawnDue ts (startClock t r)); [| contradiction].
      destruct He as [<- | []]. cbn [spawnEnemy Enemy.spawnTime].
      split; lra.
Qed.

Lemma run_cadenced (ticks : list Tick) : cadenced (refs (run ticks)).
Proof.
  unfold run. apply (fold_frame_inv (fun s => cadenced (refs s))).
  - intros s t H. rewrite frame_refs. destruct (requested s); [| exact H].
    now apply gameLoop_cadenced.
  - split; constructor.
Qed.

Lemma cadenced_at_most_four (r : Refs) :
  cadenced r -> (List.length (enemiesRef r) <= 4)%nat.
Proof.
  unfold cadenced, spawnGap, ENEMY_SPAWN_RATE_MS.
  intros [Hgap Hwin].
  destruct (enemiesRef r) as [| e1 [| e2 [| e3 [| e4 [| e5 rest]]]]];
    cbn [List.length]; try lia.
  exfalso. cbn [map] in Hgap.
  inversion Hwin as [| ? ? [Hlo _] Hw1]; subst.
  inversion Hw1 as [| ? ? _ Hw2]; subst.
  inversion Hw2 as [| ? ? _ Hw3]; subst.
  inversion Hw3 as [| ? ? _ Hw4]; subst.
  inversion Hw4 as [| ? ? [_ Hhi] _]; subst.
  inversion Hgap as [| ? ? G1 T1]; subst.
  inversion T1 as [| ? ? G2 T2]; subst.
  inversion T2 as [| ? ? G3 T3]; subst.
  inversion T3 as [| ? ? G4 _]; subst.
  inversion G1 as [| ? ? G12 _]; subst.
  inversion G2 as [| ? ? G23 _]; subst.
  inversion G3 as [| ? ? G34 _]; subst.
  inversion G4 as [| ? ? G45 _]; subst.
  lra.
Qed.

(** X12.  In every state a session reaches, the live targets stand in the
    array in the order of their spawns, any two of them spawned more than
    [ENEMY_SPAWN_RATE_MS] (1500 ms) apart; at most four targets are in the
    array at once, and four can be, although the code sets no cap. *)
Theorem at_most_four_targets_at_once :
  forall ticks : list Tick,
    let r := refs (run ticks) in
    ForallOrdPairs (fun a b => a + 1500 < b) (map Enemy.spawnTime (enemiesRef r)) /\
    (List.length (enemiesRef r) <= 4)%nat /\
    List.length (enemiesRef (refs (run fourSpawns))) = 4%nat.
Proof.
  intros ticks r. pose proof (run_cadenced ticks) as H. fold r in H.
  split; [exact (proj1 H) |].
  split; [now apply cadenced_at_most_four |].
  vm_compute. reflexivity.
Qed.

(** ** The counters of a session *)

Lemma countersLe_refl (r : Refs) : countersLe r r.
Proof. unfold countersLe. repeat split; apply Z.le_refl. Qed.

Lemma countersLe_trans (r1 r2 r3 : Refs) :
  countersLe r1 r2 -> countersLe r2 r3 -> countersLe r1 r3.
Proof. unfold countersLe. intros H1 H2. repeat split; lia. Qed.

Lemma resolveEnemy_countersLe (ap : list Point.t) (ts : Q) (r : Refs) (e : Enemy.t) :
  countersLe r (fst (fst (resolveEnemy ap ts r e))).
Proof.
  pose proof (resolveEnemy_outcome ap ts r e) as Ho.
  destruct (resolveEnemy ap ts r e) as [[r1 e1] h].
  inversion Ho; subst r1 e1 h; try (destruct (Enemy.hp e - 1 <=? 0)%Z);
    unfold countersLe; cbn; repeat split; lia.
Qed.

Lemma forEachEnemy_countersLe (ap : list Point.t) (ts : Q) (es : list Enemy.t) :
  forall r, countersLe r (fst (fst (forEachEnemy ap ts r es))).
Proof.
  induction es as [| e rest IH]; intros r; [apply countersLe_refl |].
  cbn [forEachEnemy].
  pose proof (resolveEnemy_countersLe ap ts r e) as H1.
  destruct (resolveEnemy ap ts r e) as [[r1 e1] h].
  specialize (IH r1).
  destruct (forEachEnemy ap ts r1 rest) as [[r2 rest'] hs].
  cbn [fst] in *. eapply countersLe_trans; eassumption.
Qed.

Lemma detect_countersLe (m : MotionInput) (w h ts : Q) (r : Refs) :
  countersLe r (fst (detectMotionAndCollisions m w h ts r)).
Proof.
  assert (Hstore : forall v, countersLe r (set_prevFrameDataRef v r)).
  { intros v. unfold countersLe. cbn. repeat split; apply Z.le_refl. }
  unfold detectMotionAndCollisions.
  destruct (mCanvas m); cbn [negb]; [| apply countersLe_refl].
  destruct (mCtx m); cbn [negb]; [| apply countersLe_refl].
  destruct (prevFrameDataRef r) as [prev |]; [| apply Hstore].
  destruct (sameLength prev (imageData m)); cbn [negb]; [| apply Hstore].
  unfold collisionDetection.
  match goal with
  | |- context [forEachEnemy ?ap ?t ?r0 ?es] =>
      pose proof (forEachEnemy_countersLe ap t es r0) as H;
      destruct (forEachEnemy ap t r0 es) as [[r1 es'] hs]
  end.
  unfold countersLe in *. cbn in *. exact H.
Qed.

Lemma updateGameState_countersLe (ts w h : Q) (d : SpawnDraws) (r : Refs) :
  countersLe r (fst (fst (updateGameState ts w h d r))).
Proof.
  rewrite updateGameState_refs. unfold countersLe, spawnStep.
  destruct (spawnDue ts r); cbn; repeat split; lia.
Qed.

Lemma startClock_countersLe (t : Tick) (r : Refs) : countersLe r (startClock t r).
Proof.
  unfold startClock, countersLe.
  destruct (Qeq_bool _ _); cbn; repeat split; apply Z.le_refl.
Qed.

Lemma gameLoop_countersLe (t : Tick) (r : Refs) :
  countersLe r (fst (fst (gameLoop t r))).
Proof.
  pose proof (startClock_countersLe t r) as H0.
  unfold gameLoop.
  destruct (canvas t && videoReady t); [| exact H0].
  destruct (ctx t); [| exact H0].
  cbv zeta.
  match goal with
  | |- context [updateGameState ?a ?b ?c ?d ?e] =>
      pose proof (updateGameState_countersLe a b c d e) as H1;
      destruct (updateGameState a b c d e) as [[r1 over] isRunning]
  end.
  cbn [fst] in H1.
  match goal with
  | |- context [detectMotionAndCollisions ?a ?b ?c ?d ?e] =>
      pose proof (detect_countersLe a b c d e) as H2;
      destruct (detectMotionAndCollisions a b c d e) as [r2 pass]
  end.
  cbn [fst] in H2 |- *.
  eapply countersLe_trans; [exact H0 |]. eapply countersLe_trans; eassumption.
Qed.

Lemma fold_frame_countersLe (ticks : list Tick) :
  forall s, countersLe (refs s) (refs (fold_left frame ticks s)).
Proof.
  induction ticks as [| t rest IH]; intros s; cbn [fold_left].
  - apply countersLe_refl.
  - eapply countersLe_trans; [| apply IH].
    rewrite frame_refs. destruct (requested s);
      [apply gameLoop_countersLe | apply countersLe_refl].
Qed.

(** X13.  No counter of a session ever goes down: after any further frames,
    the score, the headshots, the bodyshots, the destroyed and the spawned
    counters are each at least what they were; in particular none is ever
    negative. *)
Theorem counters_never_decrease :
  forall ticks more : list Tick,
    countersLe (refs (run ticks)) (refs (run (ticks ++ more))) /\
    countersLe initialRefs (refs (run ticks)).
Proof.
  intros ticks more. split.
  - unfold run. rewrite fold_left_app. apply fold_frame_countersLe.
  - apply (fold_frame_countersLe ticks initialSession).
Qed.

Lemma sweep_length (ts : Q) (es : list Enemy.t) :
  (List.length (sweepEnemies ts es) <= List.length es)%nat.
Proof.
  unfold sweepEnemies.
  rewrite <- (length_map (clearFlash ts) es). apply filter_length_le.
Qed.

Lemma survivors_length (ts : Q) (pass : option (list Point.t)) (es : list Enemy.t) :
  List.length (survivors (ts, pass) es) = List.length (sweepEnemies ts es).
Proof.
  destruct pass as [ap |].
  - now rewrite <- pass_survivors, length_map.
  - now rewrite sweep_survivors.
Qed.

(** What one frame does to the length of the array and to the counter. *)
Lemma frame_conserves (s : Session) (t : Tick) :
  (enemiesSpawnedRef (refs (frame s t))
   - Z.of_nat (List.length (enemiesRef (refs (frame s t))))
   - Z.of_nat (droppedAt s t)
   = enemiesSpawnedRef (refs s) - Z.of_nat (List.length (enemiesRef (refs s))))%Z.
Proof.
  rewrite frame_refs. unfold droppedAt.
  destruct (requested s); cbn [andb]; [| cbn; lia].
  destruct (gameLoop_frame t (refs s)) as (_ & _ & ->).
  rewrite gameLoop_enemies.
  destruct (ready t); [| cbn; lia].
  cbv zeta. rewrite survivors_length. unfold pushedArray.
  set (ts := timestamp t).
  set (w := inject_Z (canvasWidth t)). set (h := inject_Z (canvasHeight t)).
  pose proof (sweep_length ts (enemiesRef (spawnStep ts w h (draws t)
                                                     (startClock t (refs s))))) as Hle.
  assert (Hpush : (enemiesSpawnedRef (spawnStep ts w h (draws t) (startClock t (refs s)))
                   - Z.of_nat (List.length
                                 (enemiesRef (spawnStep ts w h (draws t)
                                                        (startClock t (refs s)))))
                   = enemiesSpawnedRef (refs s)
                     - Z.of_nat (List.length (enemiesRef (refs s))))%Z).
  { rewrite spawnStep_enemies.
    destruct (startClock_frame t (refs s)) as (-> & _).
    assert (HS : enemiesSpawnedRef (startClock t (refs s)) = enemiesSpawnedRef (refs s)).
    { unfold startClock. destruct (Qeq_bool _ _); reflexivity. }
    unfold spawnStep.
    destruct (spawnDue ts (startClock t (refs s)));
      cbn [enemiesSpawnedRef]; rewrite HS, length_app; cbn [List.length]; lia. }
  lia.
Qed.

(** X14.  The spawned counter counts the targets pushed onto the array: a
    spawn step either pushes nothing and leaves the counter, or pushes one
    new target at the end of the array and adds 1; and in every state a
    session reaches, the counter is the number of targets in the array plus
    the number of targets the sweeps have removed from it so far. *)
Theorem spawned_counter_counts_pushed_targets :
  forall ticks : list Tick,
    let r := refs (run ticks) in
    enemiesSpawnedRef r
    = (Z.of_nat (List.length (enemiesRef r))
       + Z.of_nat (droppedFrom initialSession ticks))%Z /\
    (forall (ts w h : Q) (d : SpawnDraws) (r0 : Refs),
        let rs := spawnStep ts w h d r0 in
        (enemiesRef rs = enemiesRef r0 /\
         enemiesSpawnedRef rs = enemiesSpawnedRef r0) \/
        (enemiesRef rs = enemiesRef r0 ++ [spawnEnemy ts w h d] /\
         enemiesSpawnedRef rs = (enemiesSpawnedRef r0 + 1)%Z)).
Proof.
  intros ticks. cbv zeta. split.
  - unfold run.
    assert (H : forall s,
               (enemiesSpawnedRef (refs (fold_left frame ticks s))
                - Z.of_nat (List.length (enemiesRef (refs (fold_left frame ticks s))))
                - Z.of_nat (droppedFrom s ticks)
                = enemiesSpawnedRef (refs s)
                  - Z.of_nat (List.length (enemiesRef (refs s))))%Z).
    { induction ticks as [| t rest IH]; intros s; cbn [fold_left droppedFrom].
      - cbn. lia.
      - specialize (IH (frame s t)). pose proof (frame_conserves s t). lia. }
    specialize (H initialSession). cbn [refs initialSession initialRefs
      enemiesSpawnedRef enemiesRef List.length] in H. lia.
  - intros ts w h d r0. unfold spawnStep.
    destruct (spawnDue ts r0); [right | left]; split; reflexivity.
Qed.

(** ** The clock and the end of the session *)

Lemma remaining_zero (ts : Q) (r : Refs) :
  Qleb (remaining ts r) 0 = true <->
  GAME_DURATION_SEC * 1000 <= ts - gameStartTimeRef r.
Proof.
  rewrite Qleb_true. unfold remaining, GAME_DURATION_SEC.
  set (el := (ts - gameStartTimeRef r) / 1000).
  assert (Hel : ts - gameStartTimeRef r == el * 1000) by (unfold el; field).
  rewrite Hel.
  destruct (Q.max_spec 0 (60 - el)) as [[Hlt ->] | [Hle ->]]; split; intros H; lra.
Qed.

(** X15.  The remaining time is never negative.  [updateGameState] calls
    [onGameOver], with the counters as they stand, exactly when it returns
    [false].  It does so whenever at least 60000 ms have passed since the
    start of the clock, and it makes no call and returns [true] whenever no
    more than 59999 ms have passed. *)
Theorem game_over_after_sixty_seconds :
  forall (ts w h : Q) (d : SpawnDraws) (r : Refs),
    let res := updateGameState ts w h d r in
    0 <= remaining ts r /\
    (snd res = false -> snd (fst res) = Some (statsOf (fst (fst res)))) /\
    (snd res = true -> snd (fst res) = None) /\
    (60000 <= ts - gameStartTimeRef r -> snd res = false) /\
    (ts - gameStartTimeRef r <= 59999 -> snd res = true).
Proof.
  intros ts w h d r. cbv zeta.
  pose proof (updateGameState_result ts w h d r) as Hres. cbv zeta in Hres.
  split; [unfold remaining; apply Q.le_max_l |].
  rewrite Hres. cbn [fst snd].
  pose proof (remaining_zero ts r) as Hz. unfold GAME_DURATION_SEC in Hz.
  destruct (Qleb (remaining ts r) 0); cbn [negb].
  - destruct Hz as [Hz _]. specialize (Hz eq_refl).
    split; [reflexivity |]. split; [discriminate |]. split; [reflexivity |].
    intros Hearly. lra.
  - destruct Hz as [_ Hz].
    split; [discriminate |]. split; [reflexivity |]. split; [| reflexivity].
    intros Hlate. symmetry. apply Hz. lra.
Qed.

Lemma game_over_after_sixty_seconds_witness :
  snd (updateGameState 61000 320 240 cornerDraws
         (set_gameStartTimeRef 1000 initialRefs)) = false /\
  snd (updateGameState 60999 320 240 cornerDraws
         (set_gameStartTimeRef 1000 initialRefs)) = true.
Proof.
  split.
  - apply (game_over_after_sixty_seconds
             61000 320 240 cornerDraws (set_gameStartTimeRef 1000 initialRefs)).
    vm_compute. discriminate.
  - apply (game_over_after_sixty_seconds
             60999 320 240 cornerDraws (set_gameStartTimeRef 1000 initialRefs)).
    vm_compute. discriminate.
Defined.

Lemma startClock_start (t : Tick) (r : Refs) :
  gameStartTimeRef (startClock t r) =
  if Qeq_bool (gameStartTimeRef r) 0 then timestamp t else gameStartTimeRef r.
Proof. unfold startClock. destruct (Qeq_bool _ _); reflexivity. Qed.

Lemma frame_start (s : Session) (t : Tick) :
  gameStartTimeRef (refs (frame s t)) =
  if requested s
  then (if Qeq_bool (gameStartTimeRef (refs s)) 0
        then timestamp t else gameStartTimeRef (refs s))
  else gameStartTimeRef (refs s).
Proof.
  rewrite frame_refs. destruct (requested s); [| reflexivity].
  destruct (gameLoop_frame t (refs s)) as (-> & _). apply startClock_start.
Qed.

Lemma fold_frame_start (ticks : list Tick) :
  forall s,
    ~ gameStartTimeRef (refs s) == 0 ->
    gameStartTimeRef (refs (fold_left frame ticks s)) = gameStartTimeRef (refs s).
Proof.
  induction ticks as [| t rest IH]; intros s Hs; [reflexivity |].
  cbn [fold_left].
  assert (E : gameStartTimeRef (refs (frame s t)) = gameStartTimeRef (refs s)).
  { rewrite frame_start. destruct (requested s); [| reflexivity].
    destruct (Qeq_bool (gameStartTimeRef (refs s)) 0) eqn:Hz; [| reflexivity].
    apply Qeq_bool_iff in Hz. contradiction. }
  rewrite IH; rewrite E; [reflexivity | exact Hs].
Qed.

(** X16.  The clock starts on the first animation frame, when its timestamp
    is not 0, whether or not the video is ready on it, and never moves again
    whatever frames follow; a frame on which the video is not ready does
    nothing but that: no call, no other change, and the next frame is
    requested. *)
Theorem clock_starts_on_the_first_frame :
  forall (t : Tick) (rest : list Tick),
    (~ timestamp t == 0 ->
     gameStartTimeRef (refs (run (t :: rest))) = timestamp t) /\
    (forall r : Refs,
        ready t = false ->
        gameLoop t r
        = ((if Qeq_bool (gameStartTimeRef r) 0
            then set_gameStartTimeRef (timestamp t) r else r), [], true)).
Proof.
  intros t rest. split.
  - intros Ht. unfold run. cbn [fold_left].
    assert (E : gameStartTimeRef (refs (frame initialSession t)) = timestamp t).
    { rewrite frame_start. reflexivity. }
    rewrite fold_frame_start; rewrite E; [reflexivity | exact Ht].
  - intros r. unfold ready, gameLoop, startClock.
    destruct (canvas t && videoReady t); [| reflexivity].
    cbn [andb]. now intros ->.
Qed.

Lemma clock_starts_on_the_first_frame_witness :
  let waiting := mkTick 500 true false 0 0 true cornerDraws
                        (mkMotion true true []) in
  gameStartTimeRef (refs (run [waiting; camera 1000 cornerDraws stillImage;
                               camera 2000 cornerDraws stillImage])) = 500 /\
  gameLoop waiting initialRefs = (set_gameStartTimeRef 500 initialRefs, [], true).
Proof.
  cbv zeta.
  destruct (clock_starts_on_the_first_frame
              (mkTick 500 true false 0 0 true cornerDraws (mkMotion true true []))
              [camera 1000 cornerDraws stillImage;
               camera 2000 cornerDraws stillImage]) as [H1 H2].
  split.
  - apply H1. vm_compute. discriminate.
  - apply (H2 initialRefs). reflexivity.
Defined.

Lemma gameOvers_app (evs evs' : list Event) :
  gameOvers (evs ++ evs') = gameOvers evs ++ gameOvers evs'.
Proof. apply flat_map_app. Qed.

Lemma gameOvers_pass (ts : Q) (p : option (list Hit)) : gameOvers (passEvent ts p) = [].
Proof. destruct p; reflexivity. Qed.

(** The [onGameOver] calls of one call of [gameLoop]. *)
Lemma gameLoop_gameOvers (t : Tick) (r : Refs) :
  gameOvers (snd (fst (gameLoop t r))) =
  if snd (gameLoop t r) then []
  else [statsOf (fst (fst (updateGameState
                             (timestamp t) (inject_Z (canvasWidth t))
                             (inject_Z (canvasHeight t)) (draws t)
                             (startClock t r))))].
Proof.
  unfold gameLoop.
  destruct (canvas t && videoReady t); [| reflexivity].
  destruct (ctx t); [| reflexivity].
  cbv zeta. rewrite updateGameState_result. cbv zeta.
  destruct (detectMotionAndCollisions _ _ _ _ _) as [r2 pass].
  cbn [fst snd]. rewrite gameOvers_app, gameOvers_pass, app_nil_r.
  destruct (Qleb _ 0); reflexivity.
Qed.

Lemma frame_gameOvers (s : Session) (t : Tick) :
  requested s = true ->
  gameOvers (trace (frame s t)) =
  gameOvers (trace s) ++ gameOvers (snd (fst (gameLoop t (refs s)))) /\
  requested (frame s t) = snd (gameLoop t (refs s)).
Proof.
  intros Hreq. unfold frame. rewrite Hreq.
  destruct (gameLoop t (refs s)) as [[r evs] again].
  cbn [trace requested fst snd]. now rewrite gameOvers_app.
Qed.

(** X17.  [onGameOver] is called at most once in a session: while the loop
    is running it has not been called, and once the loop has stopped it has
    been called exactly once. *)
Theorem game_over_is_called_once :
  forall ticks : list Tick,
    List.length (gameOvers (trace (run ticks)))
    = if requested (run ticks) then 0%nat else 1%nat.
Proof.
  intros ticks. unfold run.
  apply (fold_frame_inv
           (fun s => List.length (gameOvers (trace s))
                     = if requested s then 0%nat else 1%nat)).
  - intros s t H. destruct (requested s) eqn:Hreq.
    + destruct (frame_gameOvers s t Hreq) as [-> ->].
      rewrite length_app, H, gameLoop_gameOvers.
      destruct (snd (gameLoop t (refs s))); reflexivity.
    + now rewrite frame_stopped, Hreq.
  - reflexivity.
Qed.

Lemma startClock_scoreOK (t : Tick) (r : Refs) : scoreOK r -> scoreOK (startClock t r).
Proof. unfold startClock. destruct (Qeq_bool _ _); intros H; exact H. Qed.

Lemma startClock_accounted (t : Tick) (r : Refs) :
  accounted r -> accounted (startClock t r).
Proof. unfold startClock. destruct (Qeq_bool _ _); intros H; exact H. Qed.

Lemma aliveCount_nonneg (es : list Enemy.t) : (0 <= aliveCount es)%Z.
Proof. unfold aliveCount. lia. Qed.

Lemma statsOf_consistent (r : Refs) :
  scoreOK r -> accounted r -> countersLe initialRefs r ->
  consistentStats (statsOf r).
Proof.
  unfold scoreOK, accounted, countersLe, consistentStats.
  intros Hs Ha (_ & Hh & Hb & Hd & _).
  pose proof (aliveCount_nonneg (enemiesRef r)).
  cbn in *. repeat split; lia.
Qed.

(** The stats of every [onGameOver] call of a run. *)
Lemma gameOvers_consistent :
  forall (ticks : list Tick) (stats : GameStats),
    In stats (gameOvers (trace (run ticks))) ->
    consistentStats stats.
Proof.
  intros ticks stats Hin.
  assert (H : (scoreOK (refs (run ticks)) /\ accounted (refs (run ticks)) /\
               countersLe initialRefs (refs (run ticks))) /\
              Forall consistentStats (gameOvers (trace (run ticks)))).
  { unfold run.
    apply (fold_frame_inv
             (fun s => (scoreOK (refs s) /\ accounted (refs s) /\
                        countersLe initialRefs (refs s)) /\
                       Forall consistentStats (gameOvers (trace s)))).
    - intros s t [(Hs & Ha & Hc) Hall]. split.
      + rewrite frame_refs.
        destruct (requested s); [| exact (conj Hs (conj Ha Hc))].
        split; [now apply gameLoop_scoreOK |].
        split; [now apply gameLoop_accounts |].
        eapply countersLe_trans; [exact Hc | apply gameLoop_countersLe].
      + destruct (requested s) eqn:Hreq; [| now rewrite frame_stopped].
        destruct (frame_gameOvers s t Hreq) as [-> _].
        apply Forall_app. split; [exact Hall |].
        rewrite gameLoop_gameOvers.
        destruct (snd (gameLoop t (refs s))); constructor; [| constructor].
        apply statsOf_consistent.
        * apply updateGameState_scoreOK. now apply startClock_scoreOK.
        * apply updateGameState_accounts. now apply startClock_accounted.
        * eapply countersLe_trans; [exact Hc |].
          eapply countersLe_trans;
            [apply startClock_countersLe | apply updateGameState_countersLe].
    - split; [| constructor]. split; [reflexivity |]. split.
      + unfold accounted. cbn. lia.
      + apply countersLe_refl. }
  destruct H as [_ Hall]. rewrite Forall_forall in Hall. now apply Hall.
Qed.

(** X18.  The stats handed to [onGameOver] are always consistent: the score
    is three times the headshots plus the bodyshots, no counter is negative,
    and no more targets are destroyed than were spawned. *)
Theorem game_over_stats_are_consistent :
  forall (ticks : list Tick) (stats : GameStats),
    In stats (gameOvers (trace (run ticks))) ->
    consistentStats stats.
Proof. exact gameOvers_consistent. Qed.

Lemma game_over_stats_are_consistent_witness :
  consistentStats (mkGameStats 0 0 0 1 0).
Proof.
  apply (game_over_stats_are_consistent
           [camera 1000 cornerDraws stillImage;
            camera 61000 cornerDraws brightImage]).
  vm_compute. left. reflexivity.
Defined.

(** ** The efficiency figure of the debrief *)

Lemma accuracy_bounds (stats : GameStats) :
  (0 <= enemiesDestroyed stats <= enemiesSpawned stats)%Z ->
  (0 <= accuracy stats <= 100)%Z.
Proof.
  intros [Hd Hs]. unfold accuracy.
  destruct (enemiesSpawned stats >? 0)%Z eqn:Hpos; [| lia].
  rewrite Z.gtb_ltb in Hpos. apply Z.ltb_lt in Hpos.
  set (d := inject_Z (enemiesDestroyed stats)).
  set (s := inject_Z (enemiesSpawned stats)).
  assert (Hs0 : 0 < s) by (unfold s; now rewrite <- (Zlt_Qlt 0)).
  assert (Hd0 : 0 <= d) by (unfold d; now rewrite <- (Zle_Qle 0)).
  assert (Hds : d <= s) by (unfold d, s; now rewrite <- Zle_Qle).
  assert (H0 : 0 <= d / s) by (apply Qle_shift_div_l; [exact Hs0 | lra]).
  assert (H1 : d / s <= 1) by (apply Qle_shift_div_r; [exact Hs0 | lra]).
  set (q := d / s) in *. clearbody q. clear Hs0 Hd0 Hds d s.
  unfold MathRound. split.
  - apply (Z.le_trans _ (Qfloor (1 # 2))); [apply Z.le_refl |].
    apply Qfloor_resp_le. lra.
  - apply (Z.le_trans _ (Qfloor (201 # 2))); [| apply Z.le_refl].
    apply Qfloor_resp_le. lra.
Qed.

(** X19.  The efficiency passed to the debrief is a percentage: for stats
    with no more targets destroyed than spawned it lies between 0 and 100,
    it is 0 when nothing was spawned (no division takes place) and 100 when
    everything spawned was destroyed; and the stats the game hands to
    [onGameOver] always are such stats. *)
Theorem efficiency_is_a_percentage :
  forall stats : GameStats,
    (enemiesSpawned stats <= 0 -> accuracy stats = 0)%Z /\
    ((0 <= enemiesDestroyed stats <= enemiesSpawned stats)%Z ->
     (0 <= accuracy stats <= 100)%Z /\
     ((0 < enemiesSpawned stats)%Z ->
      enemiesDestroyed stats = enemiesSpawned stats ->
      accuracy stats = 100%Z)) /\
    (forall ticks : list Tick,
        In stats (gameOvers (trace (run ticks))) ->
        (0 <= accuracy stats <= 100)%Z).
Proof.
  intros stats. split; [| split].
  - intros Hnone. unfold accuracy.
    assert (E : (enemiesSpawned stats >? 0)%Z = false).
    { rewrite Z.gtb_ltb. now apply Z.ltb_ge. }
    now rewrite E.
  - intros Hrange. split; [now apply accuracy_bounds |].
    intros Hpos Hall. unfold accuracy.
    assert (E : (enemiesSpawned stats >? 0)%Z = true).
    { rewrite Z.gtb_ltb. now apply Z.ltb_lt. }
    rewrite E, Hall. unfold MathRound.
    assert (Hs0 : ~ inject_Z (enemiesSpawned stats) == 0).
    { intros H0. change 0 with (inject_Z 0) in H0.
      apply (proj1 (inject_Z_injective _ _)) in H0. lia. }
    assert (Ev : inject_Z (enemiesSpawned stats) / inject_Z (enemiesSpawned stats)
                 * 100 + (1 # 2) == 201 # 2) by (field; exact Hs0).
    rewrite Ev. reflexivity.
  - intros ticks Hin. apply accuracy_bounds.
    apply gameOvers_consistent in Hin.
    unfold consistentStats in Hin. tauto.
Qed.

Lemma efficiency_is_a_percentage_witness :
  accuracy (mkGameStats 7 1 4 40 3) = 8%Z /\
  (0 <= accuracy (mkGameStats 7 1 4 40 3) <= 100)%Z /\
  accuracy (mkGameStats 0 0 0 0 0) = 0%Z /\
  (0 <= accuracy (mkGameStats 0 0 0 1 0) <= 100)%Z.
Proof.
  split; [reflexivity |]. split; [| split].
  - apply (efficiency_is_a_percentage (mkGameStats 7 1 4 40 3)). cbn. lia.
  - apply (efficiency_is_a_percentage (mkGameStats 0 0 0 0 0)). cbn. lia.
  - apply (proj2 (proj2 (efficiency_is_a_percentage (mkGameStats 0 0 0 1 0)))
             [camera 1000 cornerDraws stillImage;
              camera 61000 cornerDraws brightImage]).
    vm_compute. left. reflexivity.
Defined.

(** ** The screens of the application *)

Lemma App_call_keeps (a : App.t) (h : App.Happening) (n : nat) :
  (App.gameState a = App.GAME_OVER -> App.stats a <> None) ->
  let a' := fold_left App.apply (firstn n (App.calls h)) a in
  App.gameState a' = App.GAME_OVER -> App.stats a' <> None.
Proof.
  intros Ha.
  destruct h; destruct n as [| [| [| [| n]]]]; cbn; intros H;
    first [exact (Ha H) | discriminate H | discriminate].
Qed.

Lemma App_after_keeps (hs : list App.Happening) :
  forall a,
    (App.gameState a = App.GAME_OVER -> App.stats a <> None) ->
    let a' := fold_left App.apply (flat_map App.calls hs) a in
    App.gameState a' = App.GAME_OVER -> App.stats a' <> None.
Proof.
  induction hs as [| h rest IH]; intros a Ha; [exact Ha |].
  cbn [flat_map]. cbv zeta. rewrite fold_left_app. apply IH.
  pose proof (App_call_keeps a h (List.length (App.calls h)) Ha) as H.
  cbv zeta in H. now rewrite firstn_all in H.
Qed.

(** X20.  Whatever the user clicks, whenever the game ends and whenever the
    texts arrive, and at every [set...] call in between, the application in
    the GAME_OVER state holds the stats of a game: the game-over screen,
    rendered under [gameState === GAME_OVER && stats], is never left blank;
    and the canvas is mounted in the PLAYING state only. *)
Theorem game_over_screen_always_has_stats :
  forall (hs : list App.Happening) (h : App.Happening) (n : nat),
    let a := App.during hs h n in
    (App.showsGameOver a = true <-> App.gameState a = App.GAME_OVER) /\
    (App.showsCanvas a = true <-> App.gameState a = App.PLAYING) /\
    (App.showsGameOver a = true -> App.showsCanvas a = false).
Proof.
  intros hs h n a.
  assert (Hinv : App.gameState a = App.GAME_OVER -> App.stats a <> None).
  { subst a. unfold App.during, App.after.
    apply App_call_keeps. apply App_after_keeps. cbn. discriminate. }
  unfold App.showsGameOver, App.showsCanvas.
  destruct (App.gameState a) eqn:Hg; destruct (App.stats a) eqn:Hs;
    repeat split; try discriminate; try reflexivity; intros _.
  exfalso. now apply Hinv.
Qed.

Lemma game_over_screen_always_has_stats_witness :
  App.showsGameOver
    (App.during [App.StartGame] (App.GameOver (mkGameStats 7 1 4 40 3)) 2) = true /\
  App.showsCanvas
    (App.during [App.StartGame] (App.GameOver (mkGameStats 7 1 4 40 3)) 1) = true.
Proof.
  split.
  - apply (game_over_screen_always_has_stats
             [App.StartGame] (App.GameOver (mkGameStats 7 1 4 40 3)) 2).
    reflexivity.
  - apply (game_over_screen_always_has_stats
             [App.StartGame] (App.GameOver (mkGameStats 7 1 4 40 3)) 1).
    reflexivity.
Defined.

(** ** The spawned target *)

(** X21.  A target spawned at [ts] on a canvas at least 120 wide and high,
    with draws in [0,1), is 80 to 120 wide and 128 to 192 high, has hp 3 of
    3, was never hit, and carries the drawn identity; its top left corner
    lies in the canvas, at least 80 from the right and from the lower
    edge. *)
Theorem spawned_target_bounds :
  forall (ts : Q) (cw ch : Z) (d : SpawnDraws),
    drawsInRange d ->
    (120 <= cw)%Z -> (120 <= ch)%Z ->
    let e := spawnEnemy ts (inject_Z cw) (inject_Z ch) d in
    (80 <= Enemy.width e /\ Enemy.width e <= 120) /\
    (128 <= Enemy.height e /\ Enemy.height e <= 192) /\
    (Enemy.hp e = 3%Z /\ Enemy.maxHp e = 3%Z /\ Enemy.isHit e = false /\
     Enemy.lastHitTime e = 0 /\ Enemy.spawnTime e = ts /\ Enemy.id e = idDraw d) /\
    (0 <= Enemy.x e /\ Enemy.x e <= inject_Z cw - 80) /\
    (0 <= Enemy.y e /\ Enemy.y e <= inject_Z ch - 80).
Proof.
  unfold drawsInRange, unitDraw.
  intros ts cw ch d ([Hs0 Hs1] & [Hx0 Hx1] & [Hy0 Hy1]) Hw Hh. cbn.
  rewrite Zle_Qle in Hw, Hh. change (inject_Z 120) with 120 in Hw, Hh.
  set (w := inject_Z cw) in *. set (h := inject_Z ch) in *.
  set (size := 80 + sizeDraw d * 40).
  assert (Hsz : 80 <= size /\ size < 120) by (unfold size; split; lra).
  destruct Hsz as [Hz0 Hz1].
  assert (Hxp : 0 <= xDraw d * (w - size)) by (apply Qmult_le_0_compat; lra).
  assert (Hyp : 0 <= yDraw d * (h - size)) by (apply Qmult_le_0_compat; lra).
  assert (Hxq : xDraw d * (w - size) <= w - size).
  { setoid_replace (w - size) with (1 * (w - size)) at 2 by ring.
    apply Qmult_le_compat_r; lra. }
  assert (Hyq : yDraw d * (h - size) <= h - size).
  { setoid_replace (h - size) with (1 * (h - size)) at 2 by ring.
    apply Qmult_le_compat_r; lra. }
  set (X := xDraw d * (w - size)) in *. set (Y := yDraw d * (h - size)) in *.
  clearbody X Y w h.
  repeat split; try reflexivity; lra.
Qed.

Lemma spawned_target_bounds_witness :
  let e := spawnEnemy 2000 640 480 (mkDraws (1 # 2) "i" (1 # 4) (9 # 10)) in
  Enemy.width e == 100 /\ Enemy.height e == 160 /\
  Enemy.x e == 135 /\ Enemy.y e == 342 /\
  Enemy.x e <= 640 - 80 /\ Enemy.y e <= 480 - 80.
Proof.
  cbv zeta.
  assert (Hd : drawsInRange (mkDraws (1 # 2) "i" (1 # 4) (9 # 10))).
  { unfold drawsInRange, unitDraw. cbn.
    repeat split; first [discriminate | reflexivity]. }
  assert (Hw : (120 <= 640)%Z) by discriminate.
  assert (Hh : (120 <= 480)%Z) by discriminate.
  pose proof (spawned_target_bounds 2000 640 480 _ Hd Hw Hh) as H.
  cbv zeta in H. destruct H as (_ & _ & _ & [_ Hx] & [_ Hy]).
  split; [vm_compute; reflexivity |]. split; [vm_compute; reflexivity |].
  split; [vm_compute; reflexivity |]. split; [vm_compute; reflexivity |].
  split; [exact Hx | exact Hy].
Defined.

(** ** What a session can score *)

Lemma potential_cons (e : Enemy.t) (es : list Enemy.t) :
  potential (e :: es) = ((if alive e then Enemy.hp e + 2 else 0) + potential es)%Z.
Proof. reflexivity. Qed.

Lemma potential_app (es es' : list Enemy.t) :
  potential (es ++ es') = (potential es + potential es')%Z.
Proof.
  induction es as [| e rest IH]; [reflexivity |].
  cbn [app]. rewrite !potential_cons, IH. lia.
Qed.

Lemma potential_nonneg (es : list Enemy.t) : (0 <= potential es)%Z.
Proof.
  induction es as [| e rest IH]; [apply Z.le_refl |].
  rewrite potential_cons. unfold alive.
  destruct (0 <? Enemy.hp e)%Z eqn:H; [apply Z.ltb_lt in H |]; lia.
Qed.

Lemma potential_sweep (ts : Q) (es : list Enemy.t) :
  (potential (sweepEnemies ts es) <= potential es)%Z.
Proof.
  unfold sweepEnemies.
  induction es as [| e rest IH]; [apply Z.le_refl |].
  cbn [map filter]. rewrite (potential_cons e).
  destruct (clearFlash_same ts e) as (_ & Hhp & _).
  assert (Ha : alive (clearFlash ts e) = alive e) by (unfold alive; now rewrite Hhp).
  destruct (keepEnemy ts (clearFlash ts e)).
  - rewrite potential_cons, Ha, Hhp. lia.
  - unfold alive. destruct (0 <? Enemy.hp e)%Z eqn:H; [apply Z.ltb_lt in H |]; lia.
Qed.

Lemma forEachEnemy_budget (ap : list Point.t) (ts : Q) (es : list Enemy.t) :
  Forall (fun e => alive e = true) es ->
  forall r,
    let r' := fst (fst (forEachEnemy ap ts r es)) in
    let es' := snd (fst (forEachEnemy ap ts r es)) in
    (scoreRef r' + potential es' <= scoreRef r + potential es)%Z.
Proof.
  intros Hall. induction Hall as [| e rest He _ IH]; intros r; [apply Z.le_refl |].
  cbn [forEachEnemy].
  pose proof (resolveEnemy_outcome ap ts r e) as Ho.
  destruct (resolveEnemy ap ts r e) as [[r1 e1] h].
  specialize (IH r1).
  destruct (forEachEnemy ap ts r1 rest) as [[r2 rest'] hs].
  cbn [fst snd] in IH |- *. rewrite !potential_cons, He.
  unfold alive in He. apply Z.ltb_lt in He.
  inversion Ho as [Hno | Hconf Hy | Hconf Hy]; subst r1 e1 h; clear Ho.
  - assert (Ha : alive e = true) by (unfold alive; now apply Z.ltb_lt).
    rewrite Ha. lia.
  - cbn [scoreRef addDestroyed addHeadshot] in IH.
    change (alive (hitEnemy ts 0 e)) with false. cbv iota. lia.
  - unfold alive.
    cbn [hitEnemy Enemy.hp Enemy.set_isHit Enemy.set_lastHitTime Enemy.set_hp].
    assert (Hsc : scoreRef (if (Enemy.hp e - 1 <=? 0)%Z
                            then addDestroyed (addBodyshot r) else addBodyshot r)
                  = (scoreRef r + 1)%Z).
    { destruct (Enemy.hp e - 1 <=? 0)%Z; reflexivity. }
    rewrite Hsc in IH.
    destruct (0 <? Enemy.hp e - 1)%Z eqn:Hb;
      [apply Z.ltb_lt in Hb | apply Z.ltb_ge in Hb]; lia.
Qed.

Lemma detect_budget (m : MotionInput) (w h ts : Q) (r : Refs) :
  Forall (fun e => alive e = true) (enemiesRef r) ->
  let r' := fst (detectMotionAndCollisions m w h ts r) in
  (scoreRef r' + potential (enemiesRef r') <= scoreRef r + potential (enemiesRef r))%Z.
Proof.
  intros Hall. cbv zeta. unfold detectMotionAndCollisions.
  destruct (mCanvas m); cbn [negb]; [| apply Z.le_refl].
  destruct (mCtx m); cbn [negb]; [| apply Z.le_refl].
  destruct (prevFrameDataRef r) as [prev |]; [| apply Z.le_refl].
  destruct (sameLength prev (imageData m)); cbn [negb]; [| apply Z.le_refl].
  unfold collisionDetection.
  cbn [enemiesRef set_cursorRef set_prevFrameDataRef].
  match goal with
  | |- context [forEachEnemy ?ap ?t ?r0 ?es] =>
      pose proof (forEachEnemy_budget ap t es Hall r0) as Hb;
      destruct (forEachEnemy ap t r0 es) as [[r1 es'] hs]
  end.
  cbn [fst snd scoreRef enemiesRef set_enemiesRef set_cursorRef
       set_prevFrameDataRef] in Hb |- *.
  exact Hb.
Qed.

Lemma gameLoop_budget (t : Tick) (r : Refs) :
  withinBudget r -> withinBudget (fst (fst (gameLoop t r))).
Proof.
  intros H.
  assert (H0 : withinBudget (startClock t r)).
  { unfold startClock. destruct (Qeq_bool _ _); exact H. }
  assert (Hsp0 : enemiesSpawnedRef (startClock t r) = enemiesSpawnedRef r).
  { unfold startClock. destruct (Qeq_bool _ _); reflexivity. }
  assert (H0' : (scoreRef (startClock t r) + potential (enemiesRef (startClock t r))
                 <= 5 * enemiesSpawnedRef r)%Z).
  { unfold withinBudget in H0. now rewrite Hsp0 in H0. }
  destruct (gameLoop_frame t r) as (_ & _ & Hsp). cbv zeta in Hsp.
  unfold withinBudget. rewrite Hsp. clear Hsp.
  unfold gameLoop, ready.
  destruct (canvas t && videoReady t); cbn [andb]; [| exact H0'].
  destruct (ctx t); [| exact H0'].
  cbv zeta.
  set (w := inject_Z (canvasWidth t)). set (h := inject_Z (canvasHeight t)).
  pose proof (updateGameState_refs (timestamp t) w h (draws t) (startClock t r)) as Hr.
  destruct (updateGameState (timestamp t) w h (draws t) (startClock t r))
    as [[r1 over] isRunning].
  cbn [fst] in Hr.
  assert (Hall : Forall (fun e => alive e = true) (enemiesRef r1)).
  { rewrite Hr. cbn [enemiesRef set_enemiesRef]. apply sweep_alive. }
  pose proof (detect_budget (motion t) w h (timestamp t) r1 Hall) as Hb.
  destruct (detectMotionAndCollisions (motion t) w h (timestamp t) r1) as [r2 pass].
  cbn [fst] in Hb |- *.
  assert (H1 : (scoreRef r1 + potential (enemiesRef r1)
                <= 5 * enemiesSpawnedRef
                         (spawnStep (timestamp t) w h (draws t) (startClock t r)))%Z).
  { rewrite Hr. cbn [scoreRef enemiesRef set_enemiesRef].
    pose proof (potential_sweep (timestamp t)
                  (enemiesRef (spawnStep (timestamp t) w h (draws t)
                                         (startClock t r)))) as Hs.
    rewrite spawnStep_enemies in Hs |- *.
    destruct (spawnStep_counters (timestamp t) w h (draws t) (startClock t r))
      as (_ & -> & _).
    unfold withinBudget in H0. unfold spawnStep.
    destruct (spawnDue (timestamp t) (startClock t r)); cbn [enemiesSpawnedRef].
    - rewrite potential_app in Hs.
      change (potential [spawnEnemy (timestamp t) w h (draws t)]) with 5%Z in Hs.
      lia.
    - rewrite app_nil_r in Hs |- *. lia. }
  lia.
Qed.

(** X22.  A target yields at most 5 points (two body shots and a head shot):
    in every state a session reaches, the score plus what the standing
    targets can still yield is at most 5 times the number of targets
    spawned, so the score never exceeds 5 per spawned target. *)
Theorem score_at_most_five_per_target :
  forall ticks : list Tick,
    let r := refs (run ticks) in
    (scoreRef r + potential (enemiesRef r) <= 5 * enemiesSpawnedRef r)%Z /\
    (scoreRef r <= 5 * enemiesSpawnedRef r)%Z.
Proof.
  intros ticks r.
  assert (H : withinBudget r).
  { subst r. unfold run. apply (fold_frame_inv (fun s => withinBudget (refs s))).
    - intros s t H. rewrite frame_refs. destruct (requested s); [| exact H].
      now apply gameLoop_budget.
    - unfold withinBudget. cbn. lia. }
  split; [exact H |].
  unfold withinBudget in H. pose proof (potential_nonneg (enemiesRef r)). lia.
Qed.

(** A predicate on the four hit counters that each call of the [forEach]
    callback keeps is kept by a whole call of [gameLoop]. *)
Lemma gameLoop_hit_counters (P : Z -> Z -> Z -> Z -> Prop) :
  (forall ap ts r e,
      P (scoreRef r) (headshotsRef r) (bodyshotsRef r) (enemiesDestroyedRef r) ->
      let r' := fst (fst (resolveEnemy ap ts r e)) in
      P (scoreRef r') (headshotsRef r') (bodyshotsRef r') (enemiesDestroyedRef r')) ->
  forall t r,
    P (scoreRef r) (headshotsRef r) (bodyshotsRef r) (enemiesDestroyedRef r) ->
    let r' := fst (fst (gameLoop t r)) in
    P (scoreRef r') (headshotsRef r') (bodyshotsRef r') (enemiesDestroyedRef r').
Proof.
  intros Hstep t r H. cbv zeta.
  assert (Hfor : forall ap ts es r0,
             P (scoreRef r0) (headshotsRef r0) (bodyshotsRef r0)
               (enemiesDestroyedRef r0) ->
             let r' := fst (fst (forEachEnemy ap ts r0 es)) in
             P (scoreRef r') (headshotsRef r') (bodyshotsRef r')
               (enemiesDestroyedRef r')).
  { intros ap ts es. induction es as [| e rest IH]; intros r0 H0; [exact H0 |].
    cbv zeta. cbn [forEachEnemy].
    pose proof (Hstep ap ts r0 e H0) as H1. cbv zeta in H1.
    destruct (resolveEnemy ap ts r0 e) as [[r1 e1] h]. cbn [fst] in H1.
    specialize (IH r1 H1). cbv zeta in IH.
    destruct (forEachEnemy ap ts r1 rest) as [[r2 rest'] hs]. exact IH. }
  assert (H0 : P (scoreRef (startClock t r)) (headshotsRef (startClock t r))
                 (bodyshotsRef (startClock t r))
                 (enemiesDestroyedRef (startClock t r))).
  { unfold startClock. destruct (Qeq_bool _ _); exact H. }
  unfold gameLoop.
  destruct (canvas t && videoReady t); [| exact H0].
  destruct (ctx t); [| exact H0].
  cbv zeta.
  set (w := inject_Z (canvasWidth t)). set (h := inject_Z (canvasHeight t)).
  pose proof (updateGameState_refs (timestamp t) w h (draws t) (startClock t r)) as Hr.
  destruct (updateGameState (timestamp t) w h (draws t) (startClock t r))
    as [[r1 over] isRunning].
  cbn [fst] in Hr.
  assert (H1 : P (scoreRef r1) (headshotsRef r1) (bodyshotsRef r1)
                 (enemiesDestroyedRef r1)).
  { rewrite Hr. cbn [scoreRef headshotsRef bodyshotsRef enemiesDestroyedRef
                     set_enemiesRef].
    destruct (spawnStep_counters (timestamp t) w h (draws t) (startClock t r))
      as (_ & -> & -> & -> & ->).
    exact H0. }
  clear Hr. unfold detectMotionAndCollisions.
  destruct (mCanvas (motion t)); cbn [negb fst]; [| exact H1].
  destruct (mCtx (motion t)); cbn [negb fst]; [| exact H1].
  destruct (prevFrameDataRef r1) as [prev |]; cbn [fst]; [| exact H1].
  destruct (sameLength prev (imageData (motion t))); cbn [negb fst]; [| exact H1].
  unfold collisionDetection.
  match goal with
  | |- context [forEachEnemy ?ap ?ts0 ?r0 ?es] =>
      pose proof (Hfor ap ts0 es r0 H1) as H2;
      destruct (forEachEnemy ap ts0 r0 es) as [[r2 es'] hs]
  end.
  exact H2.
Qed.

(** X23.  Every headshot destroys its target and only hits destroy targets:
    in every state a session reaches, the destroyed counter is at least the
    headshot counter and at most the headshots plus the bodyshots. *)
Theorem kills_lie_between_headshots_and_hits :
  forall ticks : list Tick,
    let r := refs (run ticks) in
    (headshotsRef r <= enemiesDestroyedRef r
     <= headshotsRef r + bodyshotsRef r)%Z.
Proof.
  intros ticks. cbv zeta. unfold run.
  apply (fold_frame_inv
           (fun s => (headshotsRef (refs s) <= enemiesDestroyedRef (refs s)
                      <= headshotsRef (refs s) + bodyshotsRef (refs s))%Z)).
  - intros s t H. rewrite frame_refs. destruct (requested s); [| exact H].
    apply (gameLoop_hit_counters (fun _ hd bd ds => (hd <= ds <= hd + bd)%Z));
      [| exact H].
    intros ap ts r e Hr. cbv zeta.
    pose proof (resolveEnemy_outcome ap ts r e) as Ho.
    destruct (resolveEnemy ap ts r e) as [[r1 e1] h].
    inversion Ho; subst r1 e1 h; try (destruct (Enemy.hp e - 1 <=? 0)%Z);
      cbn [fst headshotsRef bodyshotsRef enemiesDestroyedRef
           addHeadshot addBodyshot addDestroyed]; lia.
  - cbn. lia.
Qed.

(** ** A session in which nothing moves *)

Lemma gameLoop_refs_ready (t : Tick) (r : Refs) :
  ready t = true ->
  fst (fst (gameLoop t r)) =
  fst (detectMotionAndCollisions
         (motion t) (inject_Z (canvasWidth t)) (inject_Z (canvasHeight t))
         (timestamp t)
         (fst (fst (updateGameState
                      (timestamp t) (inject_Z (canvasWidth t))
                      (inject_Z (canvasHeight t)) (draws t) (startClock t r))))).
Proof.
  intros Hready. rewrite (gameLoop_ready _ _ Hready). cbv zeta.
  destruct (updateGameState _ _ _ _ _) as [[r1 over] isRunning]. cbn [fst].
  destruct (detectMotionAndCollisions _ _ _ _ _) as [r2 pass]. reflexivity.
Qed.

Lemma gameLoop_refs_waiting (t : Tick) (r : Refs) :
  ready t = false -> fst (fst (gameLoop t r)) = startClock t r.
Proof.
  unfold ready, gameLoop. destruct (canvas t && videoReady t); [| reflexivity].
  cbn [andb]. now intros ->.
Qed.

Lemma startClock_still (image : list Z) (t : Tick) (r : Refs) :
  stillSoFar image r -> stillSoFar image (startClock t r).
Proof. unfold startClock. destruct (Qeq_bool _ _); intros H; exact H. Qed.

Lemma updateGameState_still (image : list Z) (ts w h : Q) (d : SpawnDraws) (r : Refs) :
  stillSoFar image r -> stillSoFar image (fst (fst (updateGameState ts w h d r))).
Proof.
  unfold stillSoFar, noHits. rewrite updateGameState_refs.
  cbn [scoreRef headshotsRef bodyshotsRef enemiesDestroyedRef cursorRef
       prevFrameDataRef set_enemiesRef].
  rewrite spawnStep_prev.
  destruct (spawnStep_counters ts w h d r) as (_ & -> & -> & -> & ->).
  assert (Hc : cursorRef (spawnStep ts w h d r) = cursorRef r).
  { unfold spawnStep. destruct (spawnDue ts r); reflexivity. }
  rewrite Hc. intros H; exact H.
Qed.

Lemma detect_still (m : MotionInput) (w h ts : Q) (r : Refs) :
  stillSoFar (imageData m) r ->
  stillSoFar (imageData m) (fst (detectMotionAndCollisions m w h ts r)).
Proof.
  intros (Hn & Hc & Hp).
  destruct (detect_stores m w h ts r) as [Hoff Hon].
  destruct (mCanvas m && mCtx m) eqn:Hboth.
  - destruct Hp as [Hp | Hp].
    + destruct (Hon eq_refl) as [_ Hboot].
      rewrite Hboot.
      * cbn [fst]. split; [exact Hn |]. split; [exact Hc | now right].
      * unfold activePixelsOf. now rewrite Hboth, Hp.
    + apply andb_prop in Hboth as [H1 H2].
      rewrite (detect_unchanged m w h ts r H1 H2 Hp).
      cbn [fst]. split; [exact Hn |]. split; [reflexivity | now right].
  - rewrite (Hoff eq_refl). cbn [fst]. split; [exact Hn |]. split; assumption.
Qed.

Lemma gameLoop_still (t : Tick) (r : Refs) :
  stillSoFar (imageData (motion t)) r ->
  stillSoFar (imageData (motion t)) (fst (fst (gameLoop t r))) /\
  Forall noHitStats (gameOvers (snd (fst (gameLoop t r)))).
Proof.
  intros H.
  pose proof (updateGameState_still
                (imageData (motion t)) (timestamp t) (inject_Z (canvasWidth t))
                (inject_Z (canvasHeight t)) (draws t) (startClock t r)
                (startClock_still _ t r H)) as H1.
  split.
  - destruct (ready t) eqn:Hready.
    + rewrite (gameLoop_refs_ready _ _ Hready). now apply detect_still.
    + rewrite (gameLoop_refs_waiting _ _ Hready). now apply startClock_still.
  - rewrite gameLoop_gameOvers.
    destruct (snd (gameLoop t r)); constructor; [| constructor].
    destruct H1 as (Hn & _). exact Hn.
Qed.

(** X24.  A session in which every frame shows the same image scores
    nothing: whatever the timestamps, the spawns and the readiness of the
    video, the score, the headshots, the bodyshots and the destroyed counter
    stay 0, no cursor appears, and the stats handed to [onGameOver] show no
    hit. *)
Theorem still_session_scores_nothing :
  forall (image : list Z) (ticks : list Tick),
    sameImage image ticks ->
    noHits (refs (run ticks)) /\
    cursorRef (refs (run ticks)) = None /\
    Forall noHitStats (gameOvers (trace (run ticks))).
Proof.
  intros image ticks Hsame.
  assert (H : forall s,
             stillSoFar image (refs s) ->
             Forall noHitStats (gameOvers (trace s)) ->
             stillSoFar image (refs (fold_left frame ticks s)) /\
             Forall noHitStats (gameOvers (trace (fold_left frame ticks s)))).
  { induction Hsame as [| t rest Ht _ IH]; intros s Hs Hg; [now split |].
    cbn [fold_left]. apply IH.
    - rewrite frame_refs. destruct (requested s); [| exact Hs].
      subst image. now apply gameLoop_still.
    - destruct (requested s) eqn:Hreq; [| now rewrite frame_stopped].
      destruct (frame_gameOvers s t Hreq) as [-> _].
      apply Forall_app. split; [exact Hg |].
      subst image. now apply gameLoop_still. }
  destruct (H initialSession) as [(Hn & Hc & _) Hg].
  - split; [repeat split |]. split; [reflexivity | now left].
  - constructor.
  - split; [exact Hn |]. split; assumption.
Qed.

Lemma still_session_scores_nothing_witness :
  gameOvers (trace (run [camera 1000 cornerDraws stillImage;
                         camera 3000 cornerDraws stillImage;
                         camera 61000 cornerDraws stillImage]))
  = [mkGameStats 0 0 0 2 0] /\
  noHits (refs (run [camera 1000 cornerDraws stillImage;
                     camera 3000 cornerDraws stillImage;
                     camera 61000 cornerDraws stillImage])).
Proof.
  split; [vm_compute; reflexivity |].
  apply (still_session_scores_nothing stillImage).
  repeat constructor.
Defined.

(** ** The same lines in binary64

    Where the bounds above have their ends included, or keep a margin, the
    rounding of the source is the reason. *)

(** Line 100: a size draw just under 1 gives a width of exactly 120, and
    the heights of the smallest and the largest target are 128 and 192
    ([0x1.999999999999ap+0] is the double the literal 1.6 denotes). *)
Lemma size64_reaches_120 :
  (1 - 0x1p-53 <? 1)%float = true /\
  size64 (1 - 0x1p-53) = 120%float /\
  (80 * 0x1.999999999999ap+0)%float = 128%float /\
  (120 * 0x1.999999999999ap+0)%float = 192%float.
Proof. vm_compute. repeat split. Qed.

(** Line 144: with the doubles nearest to 6600.1 and 1600.1, more than 5000
    apart, the difference rounds to 5000 and the target is kept. *)
Lemma isExpired64_rounds :
  isExpired64 0x1.9c8199999999ap+12 0x1.9006666666666p+10 = false.
Proof. vm_compute. reflexivity. Qed.

(** Lines 155-159: with the doubles nearest to 61000.1 and 1000.1, less
    than 60000 apart, the difference rounds to 60000 and the session ends;
    at 59999 ms it never does. *)
Lemma gameOver64_rounds :
  gameOver64 0x1.dc90333333333p+15 0x1.f40cccccccccdp+9 = true /\
  gameOver64 60999 1000 = false.
Proof. vm_compute. split; reflexivity. Qed.

(** * The targets a session destroys *)

(** ** One pass, exactly *)










(** ** One element of the array against the others *)







(** ** The targets destroyed so far *)














(** * The claims of the specification *)

(** C1, as stated, fails.  The claim says the collision pass runs only when
    time remained at the start of the tick.  Here the session clock starts at
    1000 ms; on the frame at 61000 ms nothing remains, [onGameOver] is called
    with a score of 0, and the same frame still runs the collision pass, which
    resolves a body hit and raises the score to 1. *)
Lemma final_tick_collision_counterexample :
  let s := run [camera 1000 cornerDraws stillImage] in
  let t := camera 61000 cornerDraws brightImage in
  requested s = true /\
  remaining (timestamp t) (startClock t (refs s)) == 0 /\
  trace (frame s t) =
    [GameOverCall (mkGameStats 0 0 0 1 0); CollisionPass 61000 [Body]] /\
  scoreRef (refs (frame s t)) = 1%Z.
Proof. repeat split; vm_compute; reflexivity. Qed.

(** C1, amended.  On every frame with the video ready on which the motion
    canvas holds a previous image of the same size, the collision pass runs,
    whatever the remaining time.  When the remaining time has reached 0 the
    game-over callback is called first, with the counters as they stood before
    that pass, then the pass runs, and no further frame is requested: later
    frames leave the session untouched, so no collision pass follows. *)
Theorem collision_pass_on_every_ready_frame :
  forall (s : Session) (t : Tick) (ap : list Point.t),
    requested s = true ->
    ready t = true ->
    activePixelsOf (motion t) (inject_Z (canvasWidth t)) (refs s) = Some ap ->
    let over := Qleb (remaining (timestamp t) (startClock t (refs s))) 0 in
    exists stats hits,
      trace (frame s t) =
        trace s ++ (if over then [GameOverCall stats] else [])
                ++ [CollisionPass (timestamp t) hits] /\
      score stats = scoreRef (refs s) /\
      headshots stats = headshotsRef (refs s) /\
      bodyshots stats = bodyshotsRef (refs s) /\
      enemiesDestroyed stats = enemiesDestroyedRef (refs s) /\
      requested (frame s t) = negb over /\
      (over = true ->
       forall later, fold_left frame later (frame s t) = frame s t).
Proof.
  intros s t ap Hreq Hready Hap over.
  destruct (frame_ready s t Hreq Hready) as [Htrace Hnext].
  cbv zeta in Htrace, Hnext. fold over in Htrace, Hnext.
  set (w := inject_Z (canvasWidth t)) in *.
  set (h := inject_Z (canvasHeight t)) in *.
  set (r0 := startClock t (refs s)) in *.
  set (r1 := fst (fst (updateGameState (timestamp t) w h (draws t) r0))) in *.
  assert (Hap1 : activePixelsOf (motion t) w r1 = Some ap).
  { rewrite <- Hap. apply activePixelsOf_prev. subst r1 r0.
    rewrite updateGameState_prev.
    now destruct (startClock_frame t (refs s)) as (_ & _ & -> & _). }
  destruct (detect_pass (motion t) w h (timestamp t) r1 ap Hap1) as [hits Hhits].
  rewrite Hhits in Htrace. cbn [passEvent] in Htrace.
  exists (statsOf r1), hits.
  assert (Hr1 : r1 = set_enemiesRef
                       (sweepEnemies (timestamp t)
                          (enemiesRef (spawnStep (timestamp t) w h (draws t) r0)))
                       (spawnStep (timestamp t) w h (draws t) r0))
    by apply updateGameState_refs.
  destruct (spawnStep_counters (timestamp t) w h (draws t) r0)
    as (_ & Es & Eh & Eb & Ed).
  destruct (startClock_frame t (refs s)) as (_ & _ & _ & Es0 & Eh0 & Eb0).
  pose proof (startClock_destroyed t (refs s)) as Ed0.
  repeat split.
  - exact Htrace.
  - rewrite Hr1. cbn. fold r0 in Es0. congruence.
  - rewrite Hr1. cbn. fold r0 in Eh0. congruence.
  - rewrite Hr1. cbn. fold r0 in Eb0. congruence.
  - rewrite Hr1. cbn. fold r0 in Ed0. congruence.
  - exact Hnext.
  - intros Hover later. apply fold_frame_stopped. rewrite Hnext, Hover. reflexivity.
Qed.

Lemma collision_pass_on_every_ready_frame_witness :
  exists stats hits,
    trace (frame (run [camera 1000 cornerDraws stillImage])
                 (camera 61000 cornerDraws brightImage)) =
      [GameOverCall stats; CollisionPass 61000 hits] /\
    score stats = 0%Z.
Proof.
  destruct (collision_pass_on_every_ready_frame
              (run [camera 1000 cornerDraws stillImage])
              (camera 61000 cornerDraws brightImage)
              (comparePixels (320 / GRID_SCALE) 0 brightImage stillImage))
    as (stats & hits & Htrace & Hscore & _).
  - vm_compute. reflexivity.
  - vm_compute. reflexivity.
  - vm_compute. reflexivity.
  - exists stats, hits. split.
    + exact Htrace.
    + exact Hscore.
Defined.

(** C2: the code leaves the bounds at the bottom.  With the size draw 0 the
    target is 80 wide and 128 tall; the y position is drawn over
    [height - size], not over [height - size * 1.6], so the y draw 0.9 on a
    640 x 480 canvas puts the target at y = 360 and its lower edge at 488. *)
Theorem spawn_overflows_bottom :
  let d := mkDraws 0 "i" 0 (9 # 10) in
  let e := spawnEnemy 2000 640 480 d in
  drawsInRange d /\
  enemiesRef (fst (fst (updateGameState 2000 640 480 d initialRefs))) = [e] /\
  Enemy.width e == 80 /\
  Enemy.height e == 128 /\
  Enemy.y e == 360 /\
  480 < Enemy.y e + Enemy.height e.
Proof.
  cbv zeta. split; [| split].
  - unfold drawsInRange, unitDraw. cbn. repeat split; lra.
  - vm_compute. reflexivity.
  - cbn. repeat split; lra || reflexivity.
Qed.

(** What the spawn does guarantee, for a canvas no smaller than the target is
    wide: the target lies inside horizontally and starts inside vertically,
    and [y + size], not [y + height], stays inside. *)
Lemma spawn_inside_up_to_size (ts w h : Q) (d : SpawnDraws) :
  drawsInRange d ->
  120 <= w -> 120 <= h ->
  let e := spawnEnemy ts w h d in
  80 <= Enemy.width e /\ Enemy.width e < 120 /\
  Enemy.height e == Enemy.width e * (16 # 10) /\
  0 <= Enemy.x e /\ Enemy.x e + Enemy.width e <= w /\
  0 <= Enemy.y e /\ Enemy.y e + Enemy.width e <= h.
Proof.
  unfold drawsInRange, unitDraw. intros ([Hs0 Hs1] & [Hx0 Hx1] & [Hy0 Hy1]) Hw Hh.
  cbn. repeat split; try lra; try reflexivity; try nra.
Qed.

(** C3, as stated, fails.  An identity is whatever string the random draw
    yields, and nothing compares it with the identities in use: two spawns
    whose draws yield the same string, here "i" (what the draw 0.5 gives:
    its base-36 form is 0.i), put two live targets with the same id in the
    array. *)
Lemma duplicate_identity_counterexample :
  let ticks := [camera 2000 cornerDraws stillImage;
                camera 4000 cornerDraws stillImage] in
  spawnIdsFrom initialSession ticks = ["i"; "i"]%string /\
  liveIds (refs (run ticks)) = ["i"; "i"]%string /\
  ~ NoDup (liveIds (refs (run ticks))).
Proof.
  cbv zeta.
  assert (E : liveIds (refs (run [camera 2000 cornerDraws stillImage;
                                  camera 4000 cornerDraws stillImage]))
              = ["i"; "i"]%string) by (vm_compute; reflexivity).
  split; [| split].
  - vm_compute. reflexivity.
  - exact E.
  - rewrite E. intros H. inversion H as [| ? ? Hnotin _]. apply Hnotin. now left.
Qed.

(** C3, amended.  Each spawn gives its target the identity its random draw
    yields; the identities of the live targets are, in order, among the
    identities drawn by the spawns so far, each spawn accounting for at most
    one live target.  So the live set holds no identity twice whenever the
    draws of the session's spawns are pairwise distinct. *)
Theorem live_ids_distinct_when_draws_distinct :
  forall ticks : list Tick,
    NoDup (spawnIdsFrom initialSession ticks) ->
    subseq (liveIds (refs (run ticks))) (spawnIdsFrom initialSession ticks) /\
    NoDup (liveIds (refs (run ticks))).
Proof.
  intros ticks Hdistinct.
  pose proof (fold_frame_ids ticks initialSession) as Hsub.
  cbn [liveIds initialSession refs initialRefs enemiesRef map app] in Hsub.
  split; [exact Hsub |].
  eapply subseq_NoDup; eassumption.
Qed.

Lemma live_ids_distinct_when_draws_distinct_witness :
  NoDup (liveIds (refs (run [camera 2000 cornerDraws stillImage;
                             camera 4000 (mkDraws 0 "k" 0 0) stillImage]))).
Proof.
  apply (live_ids_distinct_when_draws_distinct
           [camera 2000 cornerDraws stillImage;
            camera 4000 (mkDraws 0 "k" 0 0) stillImage]).
  vm_compute.
  constructor.
  - intros [H | []]. discriminate H.
  - constructor; [intros [] | constructor].
Defined.

(** C4.  In every state a session reaches, every live target has
    [0 <= hp <= maxHp].  The sweep of the next [updateGameState] keeps only
    targets with [hp > 0], so a target whose hp has reached 0 is dropped by it
    (its frame yields no array element), and no later collision pass resolves
    a hit on it. *)
Theorem live_hp_in_range :
  forall ticks : list Tick,
    let r := refs (run ticks) in
    Forall hpInRange (enemiesRef r) /\
    (forall ts w h d,
        Forall (fun e => (0 < Enemy.hp e)%Z)
               (enemiesRef (fst (fst (updateGameState ts w h d r))))) /\
    (forall e, In e (enemiesRef r) -> (Enemy.hp e <= 0)%Z ->
               forall f r0 frames,
                 enemyFrame f e = None /\ follow e r0 frames = (r0, [])).
Proof.
  intros ticks r. repeat split.
  - pose proof (run_hpOK ticks) as H. fold r in H.
    eapply Forall_impl; [| exact H].
    intros e [Hmax Hhp]. unfold hpInRange. rewrite Hmax. exact Hhp.
  - intros ts w h d. rewrite updateGameState_refs.
    cbn [enemiesRef set_enemiesRef]. unfold sweepEnemies.
    apply Forall_forall. intros e He. apply filter_In in He as [_ He].
    now apply keepEnemy_alive in He.
  - now apply enemyFrame_dead.
  - now apply follow_dead.
Qed.

Lemma live_hp_in_range_witness :
  exists e,
    In e (enemiesRef (refs (run [camera 1000 cornerDraws stillImage;
                                 camera 2000 cornerDraws topRowsImage]))) /\
    Enemy.hp e = 0%Z /\
    enemyFrame (2016, Some bodyCells) e = None /\
    follow e initialRefs [(2016, Some bodyCells)] = (initialRefs, []).
Proof.
  destruct (live_hp_in_range [camera 1000 cornerDraws stillImage;
                              camera 2000 cornerDraws topRowsImage])
    as (_ & _ & Hdead).
  destruct (enemiesRef (refs (run [camera 1000 cornerDraws stillImage;
                                   camera 2000 cornerDraws topRowsImage])))
    as [| e rest] eqn:E.
  - vm_compute in E. discriminate E.
  - assert (Hhp : Enemy.hp e = 0%Z).
    { vm_compute in E. injection E as <- _. reflexivity. }
    exists e. split; [now left |]. split; [exact Hhp |].
    apply Hdead; [now left |]. rewrite Hhp. apply Z.le_refl.
Defined.

(** C5.  The hits resolved on one target are at least [HIT_COOLDOWN_MS]
    (400 ms) apart: for any two of them at timestamps [t1 < t2],
    [t2 - t1 >= 400], whatever the motion in between. *)
Theorem hits_respect_cooldown :
  forall (e : Enemy.t) (r : Refs) (frames : list FrameView)
         (t1 t2 : Q) (h1 h2 : Hit),
    In (t1, h1) (snd (follow e r frames)) ->
    In (t2, h2) (snd (follow e r frames)) ->
    t1 < t2 ->
    HIT_COOLDOWN_MS == 400 /\ HIT_COOLDOWN_MS <= t2 - t1.
Proof.
  intros e r frames t1 t2 h1 h2 H1 H2 Hlt. split; [reflexivity |].
  exact (proj2 (follow_spaced frames e r) _ _ _ _ H1 H2 Hlt).
Qed.

(** Qualifying motion on every frame from 1000 ms to 1400 ms, 100 ms apart:
    hits are resolved at 1000 and at 1400 only. *)
Lemma hits_respect_cooldown_witness :
  snd (follow (scenarioTarget "t" 900) initialRefs
              [(1000, Some bodyCells); (1100, Some bodyCells);
               (1200, Some bodyCells); (1300, Some bodyCells);
               (1400, Some bodyCells)])
  = [(1000, Body); (1400, Body)] /\
  HIT_COOLDOWN_MS <= 1400 - 1000.
Proof.
  split; [vm_compute; reflexivity |].
  apply (hits_respect_cooldown
           (scenarioTarget "t" 900) initialRefs
           [(1000, Some bodyCells); (1100, Some bodyCells);
            (1200, Some bodyCells); (1300, Some bodyCells);
            (1400, Some bodyCells)]
           1000 1400 Body Body).
  - vm_compute. left. reflexivity.
  - vm_compute. right. left. reflexivity.
  - reflexivity.
Defined.














(** C10.  In every state a session reaches the score is three times the
    headshot counter plus the bodyshot counter.  All three start at 0;
    [updateGameState] leaves them alone; resolving the collision on one target
    either leaves them alone, or adds 3 to the score and 1 to the headshots,
    or adds 1 to the score and 1 to the bodyshots. *)
Theorem score_is_weighted_hits :
  forall ticks : list Tick,
    let r := refs (run ticks) in
    scoreRef r = (3 * headshotsRef r + 1 * bodyshotsRef r)%Z /\
    (scoreRef initialRefs = 0%Z /\ headshotsRef initialRefs = 0%Z /\
     bodyshotsRef initialRefs = 0%Z) /\
    (forall ts w h d,
        let r' := fst (fst (updateGameState ts w h d r)) in
        scoreRef r' = scoreRef r /\ headshotsRef r' = headshotsRef r /\
        bodyshotsRef r' = bodyshotsRef r) /\
    (forall ap ts e,
        let r' := fst (fst (resolveEnemy ap ts r e)) in
        (scoreRef r' = scoreRef r /\ headshotsRef r' = headshotsRef r /\
         bodyshotsRef r' = bodyshotsRef r) \/
        (scoreRef r' = (scoreRef r + 3)%Z /\
         headshotsRef r' = (headshotsRef r + 1)%Z /\
         bodyshotsRef r' = bodyshotsRef r) \/
        (scoreRef r' = (scoreRef r + 1)%Z /\ headshotsRef r' = headshotsRef r /\
         bodyshotsRef r' = (bodyshotsRef r + 1)%Z)).
Proof.
  intros ticks r. split; [exact (run_scoreOK ticks) |].
  split; [repeat split |]. split.
  - intros ts w h d. cbv zeta. rewrite updateGameState_refs.
    cbn [scoreRef headshotsRef bodyshotsRef set_enemiesRef].
    destruct (spawnStep_counters ts w h d r) as (_ & -> & -> & -> & _).
    repeat split.
  - intros ap ts e. cbv zeta.
    pose proof (resolveEnemy_outcome ap ts r e) as Ho.
    destruct (resolveEnemy ap ts r e) as [[r' e'] h].
    inversion Ho; subst r' e' h.
    + left. repeat split.
    + right. left. repeat split.
    + right. right. destruct (Enemy.hp e - 1 <=? 0)%Z; repeat split.
Qed.

